(** * RAG-Based AI Chatbot: the local data transformations of the notebook

    The notebook [RAG-Based AI Chatbot_Workflow.ipynb] chains cloud services;
    its only local logic is three functions:

    - [extract_entities]   (Entity Flattener),
    - [compile_documents]  (Document Compiler),
    - [expected_keys]      (Field Normalizer).

    Python dictionaries are mutable objects handled by reference, and the
    functions create and mutate them: [entities.append({label: entity})],
    [current_doc = item] followed by [current_doc.update(...)],
    [compiled_doc[expected_key] = 'Null'].  The embedding therefore keeps an
    explicit object store: a dictionary value is a [gmap string string], an
    object reference is a natural number and the store maps references to the
    current value of the object.  A function of the notebook becomes a
    function from the store it is called in to the store it leaves and its
    result.

    Around these three, the notebook loads the label files
    ([extract_labels_from_blob]), defines the fields of the search index
    ([create_custom_index]), and prepares the documents for upload (the
    cell that builds [final_documents]).  They are embedded with the
    services they call (storage, JSON parsing, embedding, index creation)
    as parameters. *)

From stdpp Require Import gmap strings list fin_maps.

Open Scope string_scope.
Open Scope list_scope.

(** ** Data model *)

(** A Python [dict] with string keys and string values; equality of Python
    dictionaries ignores insertion order, as equality of [gmap] does. *)
Abbreviation dict := (gmap string string).

(** References to dictionary objects and the object store. *)
Abbreviation ref := nat.
Abbreviation heap := (gmap nat (gmap string string)).

(** [h !!! r] reads the object behind [r]; for the live references the code
    handles this is the stored dictionary.  A reference is live in [h] when
    [h] stores an object for it. *)
Definition live (h : heap) (r : ref) : Prop := is_Some (h !! r).

(** Allocation of a new dictionary object, as a dict display [{...}] does. *)
Definition alloc (d : dict) (h : heap) : heap * ref :=
  let r := fresh (dom h) in (<[r := d]> h, r).

(** Building a list of dictionary displays, left to right. *)
Fixpoint alloc_all (ds : list dict) (h : heap) : heap * list ref :=
  match ds with
  | [] => (h, [])
  | d :: ds' =>
      let '(h1, r) := alloc d h in
      let '(h2, rs) := alloc_all ds' h1 in
      (h2, r :: rs)
  end.

(** Reading a list of references in a store. *)
Definition deref (h : heap) (rs : list ref) : list dict :=
  map (fun r => h !!! r) rs.

(** The exceptions the modelled code raises itself. *)
Inductive exn : Type :=
  | ValueError (msg : string).

(** ** Entity Flattener *)

(** A value span [{"text": ...}], a label entry
    [{"label": ..., "value": [...]}] and a parsed label file.  The flattener
    reads the record with [document.get('labels', [])], so the field may be
    missing. *)
Record Span : Type := { text : string }.
Record LabelEntry : Type := { label : string; value : list Span }.
Record LabelRecord : Type := { labels : option (list LabelEntry) }.

(** [sep.join(parts)] *)
Definition join (sep : string) (parts : list string) : string :=
  String.concat sep parts.

(** Body of the inner loop, ending in [entities.append({label: entity})]. *)
Definition flatten_item (st : heap * list ref) (item : LabelEntry)
    : heap * list ref :=
  let entity_texts := map text (value item) in
  let entity := join " " entity_texts in
  let '(h', r) := alloc {[ label item := entity ]} (fst st) in
  (h', snd st ++ [r]).

(** Body of the outer loop: [for item in document.get('labels', []):]. *)
Definition flatten_document (st : heap * list ref) (document : LabelRecord)
    : heap * list ref :=
  fold_left flatten_item (default [] (labels document)) st.

(** [extract_entities(data)], run in store [h]. *)
Definition extract_entities (data : list LabelRecord) (h : heap)
    : heap * list ref :=
  fold_left flatten_document data (h, []).

(** ** Document Compiler *)

(** [key in item] *)
Definition key_in (key : string) (item : dict) : bool :=
  bool_decide (is_Some (item !! key)).

(** [any(key in item for key in title_keys)] *)
Definition any_title_key (title_keys : list string) (item : dict) : bool :=
  existsb (fun key => key_in key item) title_keys.

(** Truth value of a dictionary: [if current_doc:] holds for a non-empty one. *)
Definition truthy (d : dict) : bool := bool_decide (d ≠ ∅).

(** [d.update(item)]: every pair of [item] is written into [d], replacing the
    value of a key that [d] already has. *)
Definition update (d item : dict) : dict := item ∪ d.

(** State of the loop: the store, [compiled_docs] and [current_doc]. *)
Record loop_state : Type := LoopState {
  st_heap : heap;
  compiled_docs : list ref;
  current_doc : ref
}.

(** One iteration of [for item in entities:].  [current_doc = item] makes the
    entity object itself the current document. *)
Definition compile_step (title_keys : list string)
    (st : loop_state) (item : ref) : loop_state :=
  let h := st_heap st in
  if any_title_key title_keys (h !!! item) then
    LoopState h
      (if truthy (h !!! current_doc st)
       then compiled_docs st ++ [current_doc st]
       else compiled_docs st)
      item
  else
    LoopState
      (<[current_doc st := update (h !!! current_doc st) (h !!! item)]> h)
      (compiled_docs st)
      (current_doc st).

Definition compile_loop (title_keys : list string)
    (entities : list ref) (st : loop_state) : loop_state :=
  fold_left (compile_step title_keys) entities st.

(** After the loop: [if current_doc: compiled_docs.append(current_doc)] and
    [return compiled_docs]. *)
Definition result_of (st : loop_state) : list ref :=
  if truthy (st_heap st !!! current_doc st)
  then compiled_docs st ++ [current_doc st]
  else compiled_docs st.

Definition title_keys_msg : string :=
  "title_keys must be provided and cannot be None or empty.".

(** [compile_documents(entities, title_keys)], run in store [h]: the store
    after the call and either the exception raised or the returned list.
    [if not title_keys:] holds for [None] and for the empty list;
    [current_doc = {}] allocates the first accumulator. *)
Definition compile_documents (entities : list ref)
    (title_keys : option (list string)) (h : heap)
    : heap * (exn + list ref) :=
  match title_keys with
  | None | Some [] => (h, inl (ValueError title_keys_msg))
  | Some tk =>
      let '(h0, cur0) := alloc ∅ h in
      let st := compile_loop tk entities (LoopState h0 [] cur0) in
      (st_heap st, inr (result_of st))
  end.

(** A call on a list of dictionary displays: the entities are new objects. *)
Definition compile_values (ds : list dict)
    (title_keys : option (list string)) (h : heap)
    : heap * (exn + list ref) :=
  let '(h1, es) := alloc_all ds h in compile_documents es title_keys h1.

(** The values of a returned list of references. *)
Definition values_of (res : heap * (exn + list ref)) : exn + list dict :=
  match res with
  | (h', inr docs) => inr (deref h' docs)
  | (_, inl e) => inl e
  end.

(** ** Field Normalizer *)

Definition Null : string := "Null".

(** [if expected_key not in compiled_doc: compiled_doc[expected_key] = 'Null'] *)
Definition set_missing (compiled_doc : ref) (h : heap)
    (expected_key : string) : heap :=
  if key_in expected_key (h !!! compiled_doc) then h
  else <[compiled_doc := <[expected_key := Null]> (h !!! compiled_doc)]> h.

(** [for expected_key in expected_key_list: ...] on one document. *)
Definition fill_doc (expected_key_list : list string)
    (h : heap) (compiled_doc : ref) : heap :=
  fold_left (set_missing compiled_doc) expected_key_list h.

(** [expected_keys(compiled_documents, expected_key_list)]: the documents are
    changed in place and the list that was passed is returned. *)
Definition expected_keys (compiled_documents : list ref)
    (expected_key_list : list string) (h : heap) : heap * list ref :=
  (fold_left (fill_doc expected_key_list) compiled_documents h,
   compiled_documents).

(** ** Specification-level notions *)

(** An entity is a title entity when one of its keys is a title key. *)
Definition title_entity (title_keys : list string) (d : dict) : Prop :=
  ∃ key, key ∈ title_keys ∧ is_Some (d !! key).

(** A FlatEntity is a mapping with exactly one key. *)
Definition flat_entity (d : dict) : Prop := ∃ k v, d = {[ k := v ]}.

#[global] Instance title_entity_dec title_keys d :
  Decision (title_entity title_keys d).
Proof.
  refine (cast_if (decide (Exists (fun key => is_Some (d !! key)) title_keys)));
    unfold title_entity; rewrite Exists_exists in *; assumption.
Defined.

(** Number of title entities of a sequence. *)
Definition title_occurrences (title_keys : list string) (ds : list dict)
    : nat :=
  length (filter (title_entity title_keys) ds).

(** Number of non-title entities in front of the first title entity. *)
Fixpoint leading_non_title (title_keys : list string) (ds : list dict) : nat :=
  match ds with
  | [] => 0
  | d :: ds' =>
      if decide (title_entity title_keys d) then 0
      else S (leading_non_title title_keys ds')
  end.

(** The entities merged into the object [r] while the loop runs over [es]
    with [cur] as current document: a title entity becomes the current
    document, a non-title entity is merged into the current one.  Entities
    are read in the store [h]. *)
Fixpoint merged_into (title_keys : list string) (h : heap)
    (cur : ref) (es : list ref) (r : ref) : list dict :=
  match es with
  | [] => []
  | item :: es' =>
      if any_title_key title_keys (h !!! item)
      then merged_into title_keys h item es' r
      else (if decide (cur = r) then [h !!! item] else [])
           ++ merged_into title_keys h cur es' r
  end.

(** The value of key [k] in the last dictionary of [ds] that has the key. *)
Fixpoint last_value (k : string) (ds : list dict) : option string :=
  match ds with
  | [] => None
  | d :: ds' =>
      match last_value k ds' with
      | Some v => Some v
      | None => d !! k
      end
  end.

(** The Document Compiler on values, as the specification words it: one
    accumulator, initially empty; a title entity emits the accumulator when
    it is non-empty and starts a new one seeded with the entity; another
    entity is merged into the accumulator, replacing the value of a key it
    already has; at the end the accumulator is emitted when non-empty. *)
Definition group_step (title_keys : list string)
    (acc : list dict * dict) (entity : dict) : list dict * dict :=
  if decide (title_entity title_keys entity)
  then ((if decide (snd acc = ∅) then fst acc else fst acc ++ [snd acc]),
        entity)
  else (fst acc, entity ∪ snd acc).

Definition group_end (acc : list dict * dict) : list dict :=
  if decide (snd acc = ∅) then fst acc else fst acc ++ [snd acc].

Definition grouped (title_keys : list string) (ds : list dict) : list dict :=
  group_end (fold_left (group_step title_keys) ds ([], ∅)).

(** What the specification asks of a normalized document [d]: under key
    [k] the value [d] had, or the sentinel when [d] had none and [k] is an
    expected key. *)
Definition with_sentinel (expected_key_list : list string) (d : dict)
    (k : string) : option string :=
  match d !! k with
  | Some v => Some v
  | None => if decide (k ∈ expected_key_list) then Some Null else None
  end.

(** The FlatEntity the specification asks for a label entry: the label mapped
    to the texts of the spans, separated by single spaces. *)
Fixpoint spaced (texts : list string) : string :=
  match texts with
  | [] => ""
  | [t] => t
  | t :: rest => t +:+ " " +:+ spaced rest
  end.

Definition entity_of (e : LabelEntry) : dict :=
  {[ label e := spaced (map text (value e)) ]}.

Definition entries_of (document : LabelRecord) : list LabelEntry :=
  default [] (labels document).

(** Record order, then label order within a record, nothing removed. *)
Definition flattened (data : list LabelRecord) : list dict :=
  flat_map (fun document => map entity_of (entries_of document)) data.

(** A dictionary [d'] extends [d] when it has every key of [d]. *)
Definition extends (d d' : dict) : Prop :=
  ∀ k, is_Some (d !! k) → is_Some (d' !! k).

(** The store [h'] extends [h] when every object only gained keys. *)
Definition heap_extends (h h' : heap) : Prop :=
  ∀ r, extends (h !!! r) (h' !!! r).

(** The stream of the example of the specification. *)
Definition example_entities : list dict :=
  [ {[ "document_title" := "Doc1" ]}; {[ "author" := "A1" ]};
    {[ "document_title" := "Doc2" ]}; {[ "author" := "A2" ]} ].

Definition example_documents : list dict :=
  [ <[ "author" := "A1" ]> {[ "document_title" := "Doc1" ]};
    <[ "author" := "A2" ]> {[ "document_title" := "Doc2" ]} ].

(** A store holding the entities of the example as the objects 0 to 3. *)
Definition example_heap : heap :=
  {[ 0 := {[ "document_title" := "Doc1" ]}; 1 := {[ "author" := "A1" ]};
     2 := {[ "document_title" := "Doc2" ]}; 3 := {[ "author" := "A2" ]} ]}.

(** ** Strings *)

(** [s.endswith(suffix)]: some tail of [s] is [suffix]. *)
Fixpoint endswith (s suffix : string) : bool :=
  if String.eqb s suffix then true
  else match s with
       | EmptyString => false
       | String _ s' => endswith s' suffix
       end.

(** [value in s] on strings: [value] occurs in [s] as a substring. *)
Fixpoint str_in (value s : string) : bool :=
  if String.prefix value s then true
  else match s with
       | EmptyString => false
       | String _ s' => str_in value s'
       end.

(** ** Label Loader *)

(** The storage service is outside the notebook.  What the two functions see
    of it: [readall blob_name] is the result of
    [container_client.get_blob_client(blob_name).download_blob().readall()],
    [decode] is [bytes.decode('utf-8')] and [json_loads] is [json.loads];
    each is [None] when the call raises. *)
Section label_loader.
Context {bytes J : Type}.
Context (readall : string → option bytes).
Context (decode : bytes → option string).
Context (json_loads : string → option J).

(** [download_blob_to_string(container_client, blob_name)]: any exception
    is printed and [None] is returned. *)
Definition download_blob_to_string (blob_name : string) : option string :=
  match readall blob_name with
  | Some blob_data => decode blob_data
  | None => None
  end.

(** [blob.name.endswith('.json') and
     all(value not in blob.name for value in filter_value)] *)
Definition blob_selected (filter_value : list string) (blob_name : string)
    : bool :=
  endswith blob_name ".json"
  && forallb (fun value => negb (str_in value blob_name)) filter_value.

(** The loop [for blob in blob_list:], with [labels] so far; [None] when
    [json.loads] raises, which leaves the loop.  [if blob_content:] holds
    for a string that is not empty. *)
Fixpoint load_blobs (filter_value : list string) (blob_list : list string)
    (labels : list J) : option (list J) :=
  match blob_list with
  | [] => Some labels
  | blob_name :: blob_list' =>
      if blob_selected filter_value blob_name then
        match download_blob_to_string blob_name with
        | Some (String _ _ as blob_content) =>
            match json_loads blob_content with
            | Some parsed =>
                load_blobs filter_value blob_list' (labels ++ [parsed])
            | None => None
            end
        | _ => load_blobs filter_value blob_list' labels
        end
      else load_blobs filter_value blob_list' labels
  end.

(** [extract_labels_from_blob(blob_url, sas_token, container_name,
    filter_value)]; [list_blobs] is the listing of the container, [None]
    when building the clients or listing raises.  An exception anywhere in
    the [try] block is printed and the empty list is returned. *)
Definition extract_labels_from_blob (list_blobs : option (list string))
    (filter_value : list string) : list J :=
  match list_blobs with
  | Some blob_list =>
      match load_blobs filter_value blob_list [] with
      | Some labels => labels
      | None => []
      end
  | None => []
  end.

(** The contents that reach [json.loads]: those of the selected blobs that
    download to a non-empty string, in listing order. *)
Definition loaded_texts (filter_value : list string)
    (blob_list : list string) : list string :=
  omap (fun blob_name =>
          if blob_selected filter_value blob_name then
            match download_blob_to_string blob_name with
            | Some (String _ _ as blob_content) => Some blob_content
            | _ => None
            end
          else None)
       blob_list.
End label_loader.

(** ** Index definition *)

Module Index.

(** An entry of [custom_fields]: a dictionary with the keys ['name'] and
    ['type'] and optional flags, read with [field.get(flag, default)].
    Other keys of the entry are not read. *)
Record custom_field {data_type : Type} : Type := {
  name : string;
  type : data_type;
  searchable : option bool;
  filterable : option bool;
  sortable : option bool;
  retrievable : option bool
}.
Arguments custom_field : clear implicits.

(** The constructor of the search SDK that is called for a field, and the
    keyword arguments it is given. *)
Inductive constructor : Type := SimpleField | SearchableField | SearchField.

Record index_field {data_type : Type} : Type := {
  made_by : constructor;
  field_name : string;
  field_type : data_type;
  key : option bool;
  is_searchable : option bool;
  is_filterable : option bool;
  is_sortable : option bool;
  is_retrievable : option bool;
  vector_search_dimensions : option Z;
  vector_search_profile_name : option string
}.
Arguments index_field : clear implicits.

(** The [VectorSearch] configuration: one algorithm, one profile and one
    vectorizer, by their names and parameters. *)
Record vector_search_config : Type := {
  algorithm_name : string;
  algorithm_metric : string;
  profile_name : string;
  profile_algorithm_configuration_name : string;
  profile_vectorizer : string;
  vectorizer_name : string;
  resource_uri : option string;
  deployment_id : string;
  model_name : string;
  api_key : option string
}.

(** What the function raises: a [ValueError] of its own, or the exception
    that building the client raised. *)
Inductive raised {client_error : Type} : Type :=
  | Raises (e : exn)
  | Client_raises (e : client_error).
Arguments raised : clear implicits.

(** The [SearchIndex] handed to the service. *)
Record search_index {data_type : Type} : Type := {
  index_name : string;
  fields : list (index_field data_type);
  vector_search : vector_search_config
}.
Arguments search_index : clear implicits.

Section create.
Context {data_type client client_error index_result : Type}.
(** [SearchFieldDataType.String] and
    [SearchFieldDataType.Collection(SearchFieldDataType.Single)]. *)
Context (String_type Single_collection : data_type).
(** The settings [openai_endpoint_name] and [openai_secret_key_name],
    read with [os.getenv], which gives [None] for a missing one. *)
Context (openai_endpoint_name openai_secret_key_name : option string).
(** [SearchIndexClient(endpoint=search_endpoint_name,
    credential=AzureKeyCredential(search_endpoint_key))], on the settings of
    the notebook: the client, or the exception that building the credential
    or the client raises. *)
Context (search_index_client : client_error + client).
(** [index_client.create_or_update_index(index)], [None] when it
    raises. *)
Context (create_or_update_index :
           client → search_index data_type → option index_result).

Definition default_fields (embedding_dimensions : Z)
    : list (index_field data_type) :=
  [ {| made_by := SimpleField; field_name := "id";
       field_type := String_type; key := Some true;
       is_searchable := Some false; is_filterable := None;
       is_sortable := None; is_retrievable := Some false;
       vector_search_dimensions := None;
       vector_search_profile_name := None |};
    {| made_by := SearchableField; field_name := "combined_content";
       field_type := String_type; key := None;
       is_searchable := Some true; is_filterable := Some true;
       is_sortable := None; is_retrievable := Some true;
       vector_search_dimensions := None;
       vector_search_profile_name := None |};
    {| made_by := SearchField; field_name := "combined_content_vector";
       field_type := Single_collection; key := None;
       is_searchable := Some true; is_filterable := None;
       is_sortable := None; is_retrievable := Some true;
       vector_search_dimensions := Some embedding_dimensions;
       vector_search_profile_name := Some "vector_profile" |} ].

(** [field['name'] != 'id' and not field['name'].endswith('_vector')] *)
Definition is_plain (field : custom_field data_type) : bool :=
  negb (String.eqb (name field) "id")
  && negb (endswith (name field) "_vector").

(** [field['name'] == 'id'] *)
Definition is_id (field : custom_field data_type) : bool :=
  String.eqb (name field) "id".

(** [field['name'].endswith('_vector')] *)
Definition is_vector (field : custom_field data_type) : bool :=
  endswith (name field) "_vector".

Definition searchable_field (field : custom_field data_type)
    : index_field data_type :=
  {| made_by := SearchField; field_name := name field;
     field_type := type field; key := None;
     is_searchable := Some (default true (searchable field));
     is_filterable := Some (default true (filterable field));
     is_sortable := Some (default true (sortable field));
     is_retrievable := Some (default true (retrievable field));
     vector_search_dimensions := None;
     vector_search_profile_name := None |}.

Definition simple_field (field : custom_field data_type)
    : index_field data_type :=
  {| made_by := SimpleField; field_name := name field;
     field_type := type field; key := Some true;
     is_searchable := Some (default false (searchable field));
     is_filterable := None; is_sortable := None;
     is_retrievable := Some (default false (retrievable field));
     vector_search_dimensions := None;
     vector_search_profile_name := None |}.

Definition vector_field (embedding_dimensions : Z)
    (field : custom_field data_type) : index_field data_type :=
  {| made_by := SearchField; field_name := name field;
     field_type := type field; key := None;
     is_searchable := Some (default false (searchable field));
     is_filterable := None; is_sortable := None;
     is_retrievable := Some (default true (retrievable field));
     vector_search_dimensions := Some embedding_dimensions;
     vector_search_profile_name := Some "vector_profile" |}.

(** [fields_to_use]: the default fields when [custom_fields is None],
    else [simple_field + searchable_fields + vector_field], each a list
    comprehension over [custom_fields]. *)
Definition fields_to_use (embedding_dimensions : Z)
    (custom_fields : option (list (custom_field data_type)))
    : list (index_field data_type) :=
  match custom_fields with
  | None => default_fields embedding_dimensions
  | Some custom_fields =>
      map simple_field (List.filter is_id custom_fields)
      ++ map searchable_field (List.filter is_plain custom_fields)
      ++ map (vector_field embedding_dimensions)
             (List.filter is_vector custom_fields)
  end.

Definition vector_search_of (embedding_deployment : string)
    : vector_search_config :=
  {| algorithm_name := "algorithm"; algorithm_metric := "cosine";
     profile_name := "vector_profile";
     profile_algorithm_configuration_name := "algorithm";
     profile_vectorizer := "Vectorizer";
     vectorizer_name := "Vectorizer";
     resource_uri := openai_endpoint_name;
     deployment_id := embedding_deployment;
     model_name := embedding_deployment;
     api_key := openai_secret_key_name |}.

(** [create_custom_index(index_name, embedding_dimensions, custom_fields,
    embedding_deployment)]: the exception raised, or what is returned,
    which is [None] when the service call raised.  The client is built
    after the check of [embedding_deployment] and before the fields are
    looked at; the constructors of the fields and of the configuration only
    build objects. *)
Definition create_custom_index (index_name : string)
    (embedding_dimensions : Z)
    (custom_fields : option (list (custom_field data_type)))
    (embedding_deployment : option string)
    : raised client_error + option index_result :=
  match embedding_deployment with
  | None => inl (Raises (ValueError "Embedding deployment must be provided"))
  | Some deployment =>
      match search_index_client with
      | inl e => inl (Client_raises e)
      | inr index_client =>
          match fields_to_use embedding_dimensions custom_fields with
          | [] => inl (Raises (ValueError "No fields defined for the index."))
          | fields_to_use =>
              inr (create_or_update_index index_client
                     {| index_name := index_name;
                        fields := fields_to_use;
                        vector_search := vector_search_of deployment |})
          end
      end
  end.
End create.
End Index.

(** ** Embedding and preparation for upload *)

(** The list [expected_key_list] of the notebook. *)
Definition expected_key_list : list string :=
  [ "id"; "title"; "author"; "published_date" ].

Module Final.

(** A value of a final document: a string, or the embedding vector the
    service returned. *)
Inductive value {vector : Type} : Type :=
  | Str (s : string)
  | Vector (v : vector).
Arguments value : clear implicits.

(** How a run of the cell ends: the loop completed, or the embedding call
    raised; [final_documents] holds the documents appended so far. *)
Inductive run {vector : Type} : Type :=
  | Completed (final_documents : list (gmap string (value vector)))
  | Raised (final_documents : list (gmap string (value vector))).
Arguments run : clear implicits.

Section prepare.
Context {vector : Type}.
(** The service is called once per document, and [uuid.uuid4()] once per
    document appended.  [embedding n input] is what the [n]-th call
    [client.embeddings.create(input=..., model=...).data[0].embedding]
    gives, [None] when it raises; [uuid4 n] is [str(uuid.uuid4())] on its
    [n]-th call.  Calls are counted from 0; both counts are the number of
    documents appended so far. *)
Context (embedding : nat → string → option vector).
Context (uuid4 : nat → string).

(** [' '.join([compiled_doc[key] for key in expected_key_list
               if key in compiled_doc])] *)
Definition combined_content (expected_key_list : list string)
    (compiled_doc : dict) : string :=
  join " " (omap (fun key => compiled_doc !! key) expected_key_list).

(** The dictionary display [final_data = {'id': ..., ...}] followed by
    [for key, value in compiled_doc.items(): final_data[key] = value]. *)
Definition final_data (id : string) (combined_content : string)
    (combined_content_vector : vector) (compiled_doc : dict)
    : gmap string (value vector) :=
  map_fold (fun key value final_data => <[key := Str value]> final_data)
    (<["combined_content_vector" := Vector combined_content_vector]>
       (<["combined_content" := Str combined_content]>
          {[ "id" := Str id ]}))
    compiled_doc.

(** The loop [for compiled_doc in compiled_documents:], with
    [final_documents] so far. *)
Fixpoint prepare_loop (expected_key_list : list string)
    (compiled_documents : list dict)
    (final_documents : list (gmap string (value vector)))
    : run vector :=
  match compiled_documents with
  | [] => Completed final_documents
  | compiled_doc :: compiled_documents' =>
      let combined_content :=
        combined_content expected_key_list compiled_doc in
      match embedding (length final_documents) combined_content with
      | None => Raised final_documents
      | Some combined_content_vector =>
          prepare_loop expected_key_list compiled_documents'
            (final_documents
             ++ [final_data (uuid4 (length final_documents))
                   combined_content combined_content_vector
                   compiled_doc])
      end
  end.

(** The cell, run in store [h] on the list [compiled_documents]. *)
Definition prepare (expected_key_list : list string)
    (compiled_documents : list ref) (h : heap) : run vector :=
  prepare_loop expected_key_list (deref h compiled_documents) [].
End prepare.

Definition documents_of {vector} (r : run vector)
    : list (gmap string (value vector)) :=
  match r with
  | Completed final_documents | Raised final_documents => final_documents
  end.
End Final.

(** ** Entity objects *)

(** The entity objects that are title entities, in the order of the
    sequence. *)
Definition title_refs (title_keys : list string) (h : heap)
    (es : list ref) : list ref :=
  filter (fun r => title_entity title_keys (h !!! r)) es.

(** * Properties *)

(** ** Dictionaries *)

Lemma key_in_spec key (d : dict) : key_in key d = true ↔ is_Some (d !! key).
Proof. unfold key_in. apply bool_decide_eq_true. Qed.

Lemma any_title_key_spec tk (d : dict) :
  any_title_key tk d = true ↔ title_entity tk d.
Proof.
  unfold any_title_key, title_entity. rewrite existsb_exists. split.
  - intros (key & Hin & Hk). exists key. split.
    + by apply list_elem_of_In.
    + by apply key_in_spec.
  - intros (key & Hin & Hk). exists key. split.
    + by apply list_elem_of_In.
    + by apply key_in_spec.
Qed.

Lemma any_title_key_false tk (d : dict) :
  any_title_key tk d = false ↔ ¬ title_entity tk d.
Proof. rewrite <- any_title_key_spec. by destruct (any_title_key tk d). Qed.

Lemma truthy_spec (d : dict) : truthy d = true ↔ d ≠ ∅.
Proof. unfold truthy. apply bool_decide_eq_true. Qed.

Lemma truthy_false (d : dict) : truthy d = false ↔ d = ∅.
Proof.
  unfold truthy. rewrite bool_decide_eq_false. split.
  - intros H. destruct (decide (d = ∅)); [done | contradiction].
  - intros -> H. by apply H.
Qed.

Lemma non_empty_key (d : dict) : d ≠ ∅ ↔ ∃ k, is_Some (d !! k).
Proof.
  split.
  - intros Hne. destruct (map_choose d Hne) as (k & v & Hkv). by exists k, v.
  - intros (k & v & Hkv) ->. by rewrite lookup_empty in Hkv.
Qed.

Lemma lookup_update (d item : dict) k :
  update d item !! k =
  match item !! k with Some v => Some v | None => d !! k end.
Proof.
  unfold update. rewrite lookup_union.
  destruct (item !! k), (d !! k); reflexivity.
Qed.

Lemma extends_refl d : extends d d.
Proof. by intros k. Qed.

Lemma extends_trans d1 d2 d3 : extends d1 d2 → extends d2 d3 → extends d1 d3.
Proof. intros H12 H23 k Hk. eauto. Qed.

Lemma update_extends d item : extends d (update d item).
Proof.
  intros k Hk. rewrite lookup_update. destruct (item !! k); [eauto | done].
Qed.

Lemma extends_title tk d d' :
  extends d d' → title_entity tk d → title_entity tk d'.
Proof. intros Hext (key & Hin & Hk). exists key. eauto. Qed.

Lemma extends_non_empty d d' : extends d d' → d ≠ ∅ → d' ≠ ∅.
Proof.
  rewrite !non_empty_key. intros Hext (k & Hk). exists k. eauto.
Qed.

Lemma update_title tk d item :
  title_entity tk (update d item) ↔ title_entity tk item ∨ title_entity tk d.
Proof.
  unfold title_entity. split.
  - intros (key & Hin & Hk). rewrite lookup_update in Hk.
    destruct (item !! key) eqn:E.
    + left. exists key. rewrite E. eauto.
    + right. eauto.
  - intros [(key & Hin & Hk) | (key & Hin & Hk)]; exists key;
      (split; [done |]); rewrite lookup_update.
    + destruct Hk as [v ->]. eauto.
    + destruct (item !! key); eauto.
Qed.

Lemma update_non_empty d item : item ≠ ∅ → update d item ≠ ∅.
Proof. intros Hne. unfold update. by apply map_positive_l_alt. Qed.

Lemma title_non_empty tk (d : dict) : title_entity tk d → d ≠ ∅.
Proof. intros (k & _ & Hk). apply non_empty_key. by exists k. Qed.

Create HintDb dict discriminated.
#[local] Hint Resolve extends_refl update_extends : dict.

(** Case analysis on the test [any(key in item for key in title_keys)] of an
    entity [d], leaving the fact [Ht] about [title_entity]. *)
Ltac title_cases tk d Ht :=
  destruct (decide (title_entity tk d)) as [Ht | Ht];
  [ rewrite (proj2 (any_title_key_spec tk d) Ht)
  | rewrite (proj2 (any_title_key_false tk d) Ht) ].

Lemma title_occurrences_cons tk d ds :
  title_occurrences tk (d :: ds) =
  (if decide (title_entity tk d) then 1 else 0) + title_occurrences tk ds.
Proof.
  unfold title_occurrences. rewrite filter_cons.
  by destruct (decide (title_entity tk d)).
Qed.

Lemma fold_update_lookup ds (d0 : dict) k :
  fold_left update ds d0 !! k =
  match last_value k ds with Some v => Some v | None => d0 !! k end.
Proof.
  revert d0. induction ds as [| d ds IH]; intros d0; [done |].
  simpl. rewrite IH, lookup_update.
  destruct (last_value k ds); [done |]. by destruct (d !! k).
Qed.

Lemma last_value_None k ds :
  last_value k ds = None ↔ ∀ d, d ∈ ds → d !! k = None.
Proof.
  induction ds as [| d ds IH]; simpl.
  - split; [| done]. intros _ d Hd. by apply elem_of_nil in Hd.
  - destruct (last_value k ds) as [v |] eqn:E.
    + split; [done |]. intros Hall.
      assert (Some v = None); [| done].
      apply IH. intros d' Hd'. apply Hall. by apply list_elem_of_further.
    + split.
      * intros Hd d' Hd'. apply elem_of_cons in Hd' as [-> | Hd']; [done |].
        by apply (proj1 IH).
      * intros Hall. apply Hall. apply list_elem_of_here.
Qed.

Lemma last_value_Some k ds v :
  last_value k ds = Some v ↔
  ∃ i d, ds !! i = Some d ∧ d !! k = Some v
         ∧ ∀ j d', i < j → ds !! j = Some d' → d' !! k = None.
Proof.
  induction ds as [| d ds IH]; simpl.
  - split; [done |]. by intros (i & d & Hi & _).
  - destruct (last_value k ds) as [w |] eqn:E.
    + split.
      * intros Hw. apply (proj1 IH) in Hw as (i & d' & Hi & Hk & Hlast).
        exists (S i), d'. split; [done |]. split; [done |].
        intros [| j] d'' Hj Hd''; [lia |]. apply (Hlast j); [lia | done].
      * intros ([| i] & d' & Hi & Hk & Hlast).
        -- pose proof (proj2 (last_value_None k ds)) as Hn.
           rewrite E in Hn. assert (Some w = None); [| done].
           apply Hn. intros d'' Hd''.
           apply list_elem_of_lookup in Hd'' as (j & Hj).
           apply (Hlast (S j)); [lia | done].
        -- apply IH. exists i, d'. split; [done |]. split; [done |].
           intros j d'' Hj Hd''. apply (Hlast (S j)); [lia | done].
    + pose proof (proj1 (last_value_None k ds) E) as Hn. split.
      * intros Hd. exists 0, d. split; [done |]. split; [done |].
        intros [| j] d' Hj Hd'; [lia |]. apply Hn.
        apply list_elem_of_lookup. by exists j.
      * intros ([| i] & d' & Hi & Hk & Hlast).
        -- simpl in Hi. by injection Hi as ->.
        -- simpl in Hi. rewrite (Hn d') in Hk; [done |].
           apply list_elem_of_lookup. by exists i.
Qed.

(** ** Lists of references *)

Lemma NoDup_drop_middle {A} (l1 l2 : list A) x :
  NoDup (l1 ++ x :: l2) → NoDup (l1 ++ l2).
Proof.
  intros Hnd. rewrite <- Permutation_middle in Hnd.
  by apply NoDup_cons in Hnd as [_ Hnd].
Qed.

(** ** Stores *)

Lemma heap_extends_refl h : heap_extends h h.
Proof. intros r. apply extends_refl. Qed.

Lemma heap_extends_trans h1 h2 h3 :
  heap_extends h1 h2 → heap_extends h2 h3 → heap_extends h1 h3.
Proof. intros H12 H23 r. eapply extends_trans; eauto. Qed.

Lemma fresh_not_live (h : heap) : ¬ live h (fresh (dom h)).
Proof.
  unfold live. rewrite <- elem_of_dom. apply is_fresh.
Qed.

Lemma lookup_total_fresh (h : heap) : h !!! fresh (dom h) = (∅ : dict).
Proof.
  rewrite lookup_total_alt.
  destruct (h !! fresh (dom h)) eqn:E; [| done].
  exfalso. apply (fresh_not_live h). by eexists.
Qed.

(** The store at the start of the loop: the given one and the new, empty
    [current_doc]. *)
Lemma initial_lookup (h : heap) r :
  <[fresh (dom h) := (∅ : dict)]> h !!! r = h !!! r.
Proof.
  destruct (decide (r = fresh (dom h))) as [-> | Hne].
  - by rewrite lookup_total_insert_eq, lookup_total_fresh.
  - by rewrite lookup_total_insert_ne.
Qed.

Lemma deref_insert_notin (h : heap) r d rs :
  r ∉ rs → deref (<[r := d]> h) rs = deref h rs.
Proof.
  intros Hr. unfold deref. apply map_ext_in. intros x Hx.
  apply lookup_total_insert_ne. intros ->. by apply Hr, list_elem_of_In.
Qed.

(** The count reads the entities only through their being title entities. *)
Lemma title_occurrences_ext tk (h1 h2 : heap) es :
  (∀ r, r ∈ es → title_entity tk (h1 !!! r) ↔ title_entity tk (h2 !!! r)) →
  title_occurrences tk (deref h1 es) = title_occurrences tk (deref h2 es).
Proof.
  induction es as [| e es IH]; intros Hext; [done |].
  simpl. rewrite !title_occurrences_cons, IH.
  - assert (He := Hext e (list_elem_of_here e es)).
    destruct (decide (title_entity tk (h1 !!! e))),
             (decide (title_entity tk (h2 !!! e))); tauto.
  - intros r Hr. apply Hext. by apply list_elem_of_further.
Qed.

(** [merged_into] reads the store only through the title test and through
    the value of the non-title entities. *)
Lemma merged_into_ext tk (h1 h2 : heap) cur es r :
  (∀ x, x ∈ es →
     (title_entity tk (h1 !!! x) ↔ title_entity tk (h2 !!! x))
     ∧ (¬ title_entity tk (h1 !!! x) → h1 !!! x = h2 !!! x)) →
  merged_into tk h1 cur es r = merged_into tk h2 cur es r.
Proof.
  revert cur. induction es as [| item es IH]; intros cur Hext; [done |].
  simpl. destruct (Hext item (list_elem_of_here item es)) as [Ht Hv].
  assert (Hrest : ∀ x, x ∈ es →
     (title_entity tk (h1 !!! x) ↔ title_entity tk (h2 !!! x))
     ∧ (¬ title_entity tk (h1 !!! x) → h1 !!! x = h2 !!! x)).
  { intros x Hx. apply Hext. by apply list_elem_of_further. }
  destruct (decide (title_entity tk (h1 !!! item))) as [H1 | H1].
  - rewrite (proj2 (any_title_key_spec tk _) H1).
    rewrite (proj2 (any_title_key_spec tk _) (proj1 Ht H1)). by apply IH.
  - rewrite (proj2 (any_title_key_false tk _) H1).
    assert (H2 : ¬ title_entity tk (h2 !!! item)) by tauto.
    rewrite (proj2 (any_title_key_false tk _) H2).
    rewrite (Hv H1). f_equal. by apply IH.
Qed.

(** Nothing is merged into an object that is neither the current document
    nor a title entity of the sequence. *)
Lemma merged_into_nil tk (h : heap) cur es r :
  r ≠ cur → ¬ (r ∈ es ∧ title_entity tk (h !!! r)) →
  merged_into tk h cur es r = [].
Proof.
  revert cur. induction es as [| item es IH]; intros cur Hcur Hr; [done |].
  simpl. destruct (decide (title_entity tk (h !!! item))) as [Ht | Ht].
  - rewrite (proj2 (any_title_key_spec tk _) Ht). apply IH.
    + intros ->. apply Hr. split; [apply list_elem_of_here | done].
    + intros [Hin Hti]. apply Hr. split; [| done].
      by apply list_elem_of_further.
  - rewrite (proj2 (any_title_key_false tk _) Ht).
    destruct (decide (cur = r)) as [-> | _]; [done |]. simpl. apply IH.
    + done.
    + intros [Hin Hti]. apply Hr. split; [| done].
      by apply list_elem_of_further.
Qed.

Lemma alloc_all_spec ds (h : heap) :
  let h1 := fst (alloc_all ds h) in
  let es := snd (alloc_all ds h) in
  NoDup es ∧ Forall (live h1) es ∧ deref h1 es = ds
  ∧ (∀ r, live h r → (r ∉ es) ∧ h1 !! r = h !! r).
Proof.
  revert h. induction ds as [| d ds IH]; intros h; simpl.
  - split; [constructor |]. split; [constructor |]. split; [done |].
    intros r _. split; [apply not_elem_of_nil | done].
  - specialize (IH (<[fresh (dom h) := d]> h)).
    destruct (alloc_all ds (<[fresh (dom h) := d]> h)) as [h2 rs] eqn:E.
    simpl in *. destruct IH as (Hnd & Hlive & Hval & Hframe).
    assert (Hr : live (<[fresh (dom h) := d]> h) (fresh (dom h))).
    { unfold live. rewrite lookup_insert_eq. by eexists. }
    destruct (Hframe _ Hr) as [Hnotin Hsame].
    rewrite lookup_insert_eq in Hsame.
    split; [by apply NoDup_cons |]. split.
    { apply Forall_cons. split; [| done]. unfold live. rewrite Hsame.
      by eexists. }
    split.
    { f_equal; [| done]. by apply lookup_total_correct. }
    intros r Hl.
    assert (Hne : r ≠ fresh (dom h)).
    { intros ->. by apply (fresh_not_live h). }
    assert (Hl1 : live (<[fresh (dom h) := d]> h) r).
    { unfold live. by rewrite lookup_insert_ne. }
    destruct (Hframe _ Hl1) as [Hn Hs]. split.
    + intros Hin. apply elem_of_cons in Hin as [-> | Hin]; [done |].
      by apply Hn.
    + rewrite Hs. by rewrite lookup_insert_ne.
Qed.

Lemma alloc_all_app ds1 ds2 (h : heap) :
  alloc_all (ds1 ++ ds2) h =
  (fst (alloc_all ds2 (fst (alloc_all ds1 h))),
   snd (alloc_all ds1 h) ++ snd (alloc_all ds2 (fst (alloc_all ds1 h)))).
Proof.
  revert h. induction ds1 as [| d ds1 IH]; intros h; simpl.
  - by destruct (alloc_all ds2 h).
  - rewrite IH. by destruct (alloc_all ds1 _).
Qed.

(** ** The loop of the Document Compiler *)

Section compile_loop.
  Context (tk : list string).

Lemma compile_loop_cons item es st :
  compile_loop tk (item :: es) st = compile_loop tk es (compile_step tk st item).
Proof. reflexivity. Qed.

(** An iteration only adds keys to objects. *)
Lemma compile_step_extends st item :
  heap_extends (st_heap st) (st_heap (compile_step tk st item)).
Proof.
  unfold compile_step.
  destruct (any_title_key tk (st_heap st !!! item)); simpl.
  - apply heap_extends_refl.
  - intros r. destruct (decide (r = current_doc st)) as [-> | Hne].
    + rewrite lookup_total_insert_eq. auto with dict.
    + rewrite lookup_total_insert_ne by done. auto with dict.
Qed.

(** A non-title entity is written into the current document: its keys take
    its values, the other keys of the document keep theirs. *)
Lemma compile_step_merge st item k :
  ¬ title_entity tk (st_heap st !!! item) →
  let st' := compile_step tk st item in
  current_doc st' = current_doc st
  ∧ compiled_docs st' = compiled_docs st
  ∧ (st_heap st' !!! current_doc st) !! k
    = match (st_heap st !!! item) !! k with
      | Some v => Some v
      | None => (st_heap st !!! current_doc st) !! k
      end.
Proof.
  intros Ht. unfold compile_step.
  rewrite (proj2 (any_title_key_false tk _) Ht). simpl.
  by rewrite lookup_total_insert_eq, lookup_update.
Qed.

(** A title entity becomes the current document; the previous one is kept
    when it is non-empty; no object changes. *)
Lemma compile_step_title st item :
  title_entity tk (st_heap st !!! item) →
  let st' := compile_step tk st item in
  current_doc st' = item
  ∧ st_heap st' = st_heap st
  ∧ compiled_docs st'
    = compiled_docs st
      ++ (if decide (st_heap st !!! current_doc st = ∅) then []
          else [current_doc st]).
Proof.
  intros Ht. unfold compile_step.
  rewrite (proj2 (any_title_key_spec tk _) Ht). simpl.
  split; [done |]. split; [done |].
  destruct (truthy _) eqn:E.
  - apply truthy_spec in E. by destruct (decide _).
  - apply truthy_false in E. destruct (decide _); [| done].
    by rewrite app_nil_r.
Qed.

Lemma compile_step_titled st item r :
  title_entity tk (st_heap st !!! r) →
  title_entity tk (st_heap (compile_step tk st item) !!! r).
Proof.
  intros Hr. eapply extends_title; [| exact Hr].
  apply compile_step_extends.
Qed.

Lemma first_step_title (h : heap) e :
  title_entity tk (h !!! e) →
  compile_step tk (LoopState (<[fresh (dom h) := ∅]> h) [] (fresh (dom h))) e
  = LoopState (<[fresh (dom h) := ∅]> h) [] e.
Proof.
  intros He. unfold compile_step. simpl.
  rewrite !initial_lookup, lookup_total_fresh.
  rewrite (proj2 (any_title_key_spec tk _) He).
  by rewrite (proj2 (truthy_false ∅) eq_refl).
Qed.

Lemma compile_loop_non_empty es st :
  Forall (fun r => st_heap st !!! r ≠ ∅) (compiled_docs st) →
  let st' := compile_loop tk es st in
  Forall (fun r => st_heap st' !!! r ≠ ∅) (result_of st').
Proof.
  revert st. induction es as [| item es IH]; intros st Hdocs; simpl.
  - unfold result_of. destruct (truthy _) eqn:E; [| done].
    apply Forall_app. split; [done |].
    apply Forall_singleton. by apply truthy_spec.
  - apply IH. unfold compile_step.
    destruct (any_title_key tk (st_heap st !!! item)); simpl.
    + destruct (truthy _) eqn:E; [| done].
      apply Forall_app. split; [done |].
      apply Forall_singleton. by apply truthy_spec.
    + eapply Forall_impl; [exact Hdocs |]. intros r Hr. simpl in Hr.
      destruct (decide (r = current_doc st)) as [-> | Hne].
      * rewrite lookup_total_insert_eq.
        eapply extends_non_empty; [apply update_extends | done].
      * by rewrite lookup_total_insert_ne.
Qed.

(** Once the current document has a title key, every document emitted from
    then on has one. *)
Lemma compile_loop_tail_titled es st :
  Forall (fun r => title_entity tk (st_heap st !!! r))
         (tail (compiled_docs st)) →
  compiled_docs st = [] ∨ title_entity tk (st_heap st !!! current_doc st) →
  let st' := compile_loop tk es st in
  Forall (fun r => title_entity tk (st_heap st' !!! r)) (tail (result_of st')).
Proof.
  assert (Hsnoc : ∀ (h : heap) docs cur,
    Forall (fun r => title_entity tk (h !!! r)) (tail docs) →
    docs = [] ∨ title_entity tk (h !!! cur) →
    Forall (fun r => title_entity tk (h !!! r)) (tail (docs ++ [cur]))).
  { intros h docs cur Htl [-> | Hcur]; [constructor |].
    destruct docs as [| d docs]; [constructor |]. simpl in *.
    apply Forall_app. split; [done |]. by apply Forall_singleton. }
  revert st. induction es as [| item es IH]; intros st Htl Hcur; simpl.
  - unfold result_of. destruct (truthy _); [| done]. by apply Hsnoc.
  - apply IH; unfold compile_step;
      destruct (any_title_key tk (st_heap st !!! item)) eqn:E; simpl.
    + destruct (truthy _); [| done]. by apply Hsnoc.
    + eapply Forall_impl; [exact Htl |]. intros r Hr.
      apply (compile_step_titled st item) in Hr.
      unfold compile_step in Hr. by rewrite E in Hr.
    + right. by apply any_title_key_spec.
    + destruct Hcur as [-> | Hcur]; [by left | right].
      apply (compile_step_titled st item) in Hcur.
      unfold compile_step in Hcur. by rewrite E in Hcur.
Qed.

Lemma compile_loop_all_titled es st :
  Forall (fun r => title_entity tk (st_heap st !!! r)) (compiled_docs st) →
  title_entity tk (st_heap st !!! current_doc st) →
  let st' := compile_loop tk es st in
  Forall (fun r => title_entity tk (st_heap st' !!! r)) (result_of st').
Proof.
  revert st. induction es as [| item es IH]; intros st Hdocs Hcur; simpl.
  - unfold result_of. destruct (truthy _); [| done].
    apply Forall_app. split; [done |]. by apply Forall_singleton.
  - apply IH; unfold compile_step;
      destruct (any_title_key tk (st_heap st !!! item)) eqn:E; simpl.
    + destruct (truthy _); [| done].
      apply Forall_app. split; [done |]. by apply Forall_singleton.
    + eapply Forall_impl; [exact Hdocs |]. intros r Hr.
      apply (compile_step_titled st item) in Hr.
      unfold compile_step in Hr. by rewrite E in Hr.
    + by apply any_title_key_spec.
    + apply (compile_step_titled st item) in Hcur.
      unfold compile_step in Hcur. by rewrite E in Hcur.
Qed.

(** What the loop adds to [compiled_docs]: one document per title entity
    still to come, and one more when the current document is non-empty or is
    about to receive an entity. *)
Lemma compile_loop_length es st :
  current_doc st ∉ es ∨ title_entity tk (st_heap st !!! current_doc st) →
  (∀ r, r ∈ es → st_heap st !!! r ≠ ∅) →
  length (result_of (compile_loop tk es st)) =
    length (compiled_docs st)
    + title_occurrences tk (deref (st_heap st) es)
    + (if decide (st_heap st !!! current_doc st ≠ ∅
                  ∨ 0 < leading_non_title tk (deref (st_heap st) es))
       then 1 else 0).
Proof.
  revert st. induction es as [| item es IH]; intros st Hcur Hne.
  - simpl. unfold result_of, title_occurrences. simpl.
    destruct (truthy _) eqn:E.
    + apply truthy_spec in E. rewrite length_app. simpl.
      destruct (decide _) as [_ | Hn]; [lia | tauto].
    + apply truthy_false in E.
      destruct (decide _) as [[Hn | Hn] | _]; [congruence | lia | lia].
  - rewrite compile_loop_cons. simpl deref.
    rewrite title_occurrences_cons. simpl leading_non_title.
    assert (Hitem : st_heap st !!! item ≠ ∅)
      by (apply Hne; apply list_elem_of_here).
    unfold compile_step. title_cases tk (st_heap st !!! item) Ht.
    + rewrite IH; simpl.
      * destruct (decide (st_heap st !!! item ≠ ∅ ∨ _)) as [_ | Hn];
          [| tauto].
        destruct (truthy _) eqn:E.
        -- apply truthy_spec in E. rewrite length_app. simpl.
           destruct (decide _) as [_ | Hn]; [lia | tauto].
        -- apply truthy_false in E.
           destruct (decide _) as [[Hn | Hn] | _]; [congruence | lia | lia].
      * by right.
      * intros r Hr. apply Hne. by apply list_elem_of_further.
    + rewrite IH; simpl.
      * rewrite lookup_total_insert_eq.
        destruct (decide (update _ _ ≠ ∅ ∨ _)) as [_ | Hn].
        2:{ exfalso. apply Hn. left. by apply update_non_empty. }
        destruct (decide (_ ∨ 0 < S _)) as [_ | Hn]; [| exfalso; apply Hn; lia].
        f_equal. f_equal. apply title_occurrences_ext.
        intros r Hr. destruct (decide (r = current_doc st)) as [-> | Hrc].
        -- rewrite lookup_total_insert_eq.
           destruct Hcur as [Hcur | Hcur].
           ++ exfalso. apply Hcur. by apply list_elem_of_further.
           ++ split; [done |]. intros _. apply update_title. by right.
        -- by rewrite lookup_total_insert_ne.
      * rewrite lookup_total_insert_eq.
        destruct Hcur as [Hcur | Hcur].
        -- left. intros Hin. apply Hcur. by apply list_elem_of_further.
        -- right. apply update_title. by right.
      * intros r Hr. destruct (decide (r = current_doc st)) as [-> | Hrc].
        -- rewrite lookup_total_insert_eq. by apply update_non_empty.
        -- rewrite lookup_total_insert_ne by done.
           apply Hne. by apply list_elem_of_further.
Qed.

(** Every object ends as its value at the start of the loop, updated with
    the entities merged into it, in the order of the sequence. *)
Lemma compile_loop_merged es st r :
  current_doc st ∉ es ∨ title_entity tk (st_heap st !!! current_doc st) →
  st_heap (compile_loop tk es st) !!! r =
  fold_left update (merged_into tk (st_heap st) (current_doc st) es r)
            (st_heap st !!! r).
Proof.
  revert st. induction es as [| item es IH]; intros st Hcur; [done |].
  rewrite compile_loop_cons. simpl merged_into. unfold compile_step.
  title_cases tk (st_heap st !!! item) Ht.
  - rewrite IH; [done |]. by right.
  - set (h1 := <[current_doc st :=
                   update (st_heap st !!! current_doc st)
                          (st_heap st !!! item)]> (st_heap st)).
    rewrite IH; simpl; fold h1.
    + rewrite (merged_into_ext tk h1 (st_heap st)).
      * rewrite fold_left_app. f_equal.
        destruct (decide (current_doc st = r)) as [<- | Hr]; simpl.
        -- unfold h1. by rewrite lookup_total_insert_eq.
        -- unfold h1. by rewrite lookup_total_insert_ne.
      * intros x Hx. unfold h1.
        destruct (decide (x = current_doc st)) as [-> | Hxc].
        -- rewrite lookup_total_insert_eq.
           destruct Hcur as [Hcur | Hcur].
           ++ exfalso. apply Hcur. by apply list_elem_of_further.
           ++ assert (Hup : title_entity tk
                  (update (st_heap st !!! current_doc st)
                          (st_heap st !!! item)))
                by (apply update_title; by right).
              split; [done | tauto].
        -- by rewrite lookup_total_insert_ne.
    + unfold h1. rewrite lookup_total_insert_eq.
      destruct Hcur as [Hcur | Hcur].
      * left. intros Hin. apply Hcur. by apply list_elem_of_further.
      * right. apply update_title. by right.
Qed.

Lemma compile_loop_extends es st :
  heap_extends (st_heap st) (st_heap (compile_loop tk es st)).
Proof.
  revert st. induction es as [| item es IH]; intros st.
  - apply heap_extends_refl.
  - rewrite compile_loop_cons. eapply heap_extends_trans; [| apply IH].
    apply compile_step_extends.
Qed.

(** The objects of the returned list: the documents emitted so far, the
    title entities still to come, and the current document when it ends
    non-empty. *)
Lemma compile_loop_member es st r :
  current_doc st ∉ es ∨ title_entity tk (st_heap st !!! current_doc st) →
  r ∈ result_of (compile_loop tk es st) ↔
    r ∈ compiled_docs st
    ∨ (r ∈ es ∧ title_entity tk (st_heap st !!! r))
    ∨ (r = current_doc st ∧ st_heap (compile_loop tk es st) !!! r ≠ ∅).
Proof.
  revert st. induction es as [| item es IH]; intros st Hcur.
  - simpl. unfold result_of. destruct (truthy _) eqn:E.
    + apply truthy_spec in E. rewrite elem_of_app, list_elem_of_singleton.
      split.
      * intros [Hr | ->]; [by left | right; right; done].
      * intros [Hr | [[Hr _] | [-> _]]]; [by left | | by right].
        by apply elem_of_nil in Hr.
    + apply truthy_false in E. split; [by left |].
      intros [Hr | [[Hr _] | [-> Hne]]]; [done | | done].
      by apply elem_of_nil in Hr.
  - rewrite compile_loop_cons.
    destruct (decide (title_entity tk (st_heap st !!! item))) as [Ht | Ht].
    + (* a title entity: the current document is emitted when non-empty *)
      assert (Hstep : compile_step tk st item
                = LoopState (st_heap st)
                    (if truthy (st_heap st !!! current_doc st)
                     then compiled_docs st ++ [current_doc st]
                     else compiled_docs st) item).
      { unfold compile_step.
        by rewrite (proj2 (any_title_key_spec tk _) Ht). }
      rewrite Hstep, IH by (by right). simpl.
      assert (Hitem : st_heap (compile_loop tk es
                  (LoopState (st_heap st)
                     (if truthy (st_heap st !!! current_doc st)
                      then compiled_docs st ++ [current_doc st]
                      else compiled_docs st) item)) !!! item ≠ ∅).
      { eapply extends_non_empty; [apply compile_loop_extends |].
        simpl. by apply title_non_empty in Ht. }
      rewrite elem_of_cons.
      destruct (truthy (st_heap st !!! current_doc st)) eqn:E.
      * apply truthy_spec in E.
        assert (Hfin : st_heap (compile_loop tk es
                  (LoopState (st_heap st)
                     (compiled_docs st ++ [current_doc st]) item))
                  !!! current_doc st ≠ ∅).
        { eapply extends_non_empty; [apply compile_loop_extends | done]. }
        rewrite elem_of_app, list_elem_of_singleton. split.
        -- intros [[Hr | ->] | [[Hr Hti] | [-> _]]]; auto.
        -- intros [Hr | [[[-> | Hr] Hti] | [-> _]]]; auto.
      * apply truthy_false in E.
        assert (Hnt : ¬ title_entity tk (st_heap st !!! current_doc st)).
        { rewrite E. intros (k & _ & Hk). rewrite lookup_empty in Hk.
          by destruct Hk. }
        assert (Hfin : st_heap (compile_loop tk es
                  (LoopState (st_heap st) (compiled_docs st) item))
                  !!! current_doc st = ∅).
        { rewrite compile_loop_merged by (by right). simpl.
          rewrite merged_into_nil; [done | | tauto].
          intros Heq. apply Hnt. by rewrite Heq. }
        split.
        -- intros [Hr | [[Hr Hti] | [-> _]]]; auto.
        -- intros [Hr | [[[-> | Hr] Hti] | [-> Hne]]]; auto. done.
    + (* another entity: merged into the current document *)
      assert (Hstep : compile_step tk st item
                = LoopState
                    (<[current_doc st :=
                         update (st_heap st !!! current_doc st)
                                (st_heap st !!! item)]> (st_heap st))
                    (compiled_docs st) (current_doc st)).
      { unfold compile_step.
        by rewrite (proj2 (any_title_key_false tk _) Ht). }
      rewrite Hstep, IH; simpl.
      * assert (Hflags : ∀ x, x ∈ es →
          title_entity tk
            (<[current_doc st := update (st_heap st !!! current_doc st)
                                   (st_heap st !!! item)]> (st_heap st) !!! x)
          ↔ title_entity tk (st_heap st !!! x)).
        { intros x Hx. destruct (decide (x = current_doc st)) as [-> | Hxc].
          - rewrite lookup_total_insert_eq.
            destruct Hcur as [Hcur | Hcur].
            + exfalso. apply Hcur. by apply list_elem_of_further.
            + split; [done |]. intros _. apply update_title. by right.
          - by rewrite lookup_total_insert_ne. }
        rewrite elem_of_cons. split.
        -- intros [Hr | [[Hr Hti] | Hc]]; auto.
           right. left. split; [by right | by apply Hflags].
        -- intros [Hr | [[[-> | Hr] Hti] | Hc]]; auto; [done |].
           right. left. split; [done | by apply Hflags].
      * rewrite lookup_total_insert_eq.
        destruct Hcur as [Hcur | Hcur].
        -- left. intros Hin. apply Hcur. by apply list_elem_of_further.
        -- right. apply update_title. by right.
Qed.

Lemma group_end_result (st : loop_state) :
  deref (st_heap st) (result_of st)
  = group_end (deref (st_heap st) (compiled_docs st),
               st_heap st !!! current_doc st).
Proof.
  unfold result_of, group_end. simpl.
  destruct (truthy _) eqn:E.
  - apply truthy_spec in E. destruct (decide _); [done |].
    unfold deref. by rewrite map_app.
  - apply truthy_false in E. by destruct (decide _).
Qed.

(** On pairwise distinct objects the loop computes the grouping of the
    values. *)
Lemma compile_loop_grouped es st :
  NoDup (compiled_docs st ++ current_doc st :: es) →
  let st' := compile_loop tk es st in
  deref (st_heap st') (result_of st')
  = group_end (fold_left (group_step tk) (deref (st_heap st) es)
                 (deref (st_heap st) (compiled_docs st),
                  st_heap st !!! current_doc st)).
Proof.
  revert st. induction es as [| item es IH]; intros st Hnd.
  - apply group_end_result.
  - simpl. rewrite IH; clear IH.
    + f_equal. apply NoDup_app in Hnd as (_ & Hdc & Hc).
      apply NoDup_cons in Hc as (Hc & _).
      unfold compile_step, group_step; simpl.
      title_cases tk (st_heap st !!! item) Ht; simpl.
      * f_equal. destruct (truthy _) eqn:E.
        -- apply truthy_spec in E. destruct (decide _); [done |].
           unfold deref. by rewrite map_app.
        -- apply truthy_false in E. by destruct (decide _).
      * rewrite lookup_total_insert_eq.
        rewrite !deref_insert_notin; [done | |].
        -- intros Hin. apply (Hdc _ Hin). apply list_elem_of_here.
        -- intros Hin. apply Hc. by apply list_elem_of_further.
    + unfold compile_step.
      destruct (any_title_key tk (st_heap st !!! item)); simpl.
      * destruct (truthy _).
        -- by rewrite <- app_assoc.
        -- by apply NoDup_drop_middle in Hnd.
      * change (current_doc st :: item :: es)
          with ([current_doc st] ++ item :: es) in Hnd.
        rewrite app_assoc in Hnd. apply NoDup_drop_middle in Hnd.
        by rewrite <- app_assoc in Hnd.
Qed.

End compile_loop.

(** ** The Document Compiler *)

Lemma compile_documents_ok es tk0 tk h :
  compile_documents es (Some (tk0 :: tk)) h =
  let st := compile_loop (tk0 :: tk) es
              (LoopState (<[fresh (dom h) := ∅]> h) [] (fresh (dom h))) in
  (st_heap st, inr (result_of st)).
Proof. reflexivity. Qed.

(** On pairwise distinct live entities, [compile_documents] returns the
    grouping of their values. *)
Lemma compile_documents_grouped es key keys (h : heap) :
  NoDup es → Forall (live h) es →
  values_of (compile_documents es (Some (key :: keys)) h)
  = inr (grouped (key :: keys) (deref h es)).
Proof.
  intros Hnd Hlive. rewrite Forall_forall in Hlive.
  rewrite compile_documents_ok. simpl. f_equal.
  rewrite compile_loop_grouped; simpl.
  - unfold grouped. rewrite lookup_total_insert_eq. do 2 f_equal.
    unfold deref. apply map_ext. intros r. apply initial_lookup.
  - apply NoDup_cons. split; [| done].
    intros Hin. by apply (fresh_not_live h), Hlive.
Qed.

(** A call on dictionary displays returns the grouping of the values. *)
Lemma compile_values_grouped ds key keys (h : heap) :
  values_of (compile_values ds (Some (key :: keys)) h)
  = inr (grouped (key :: keys) ds).
Proof.
  unfold compile_values.
  pose proof (alloc_all_spec ds h) as (Hnd & Hlive & Hval & _).
  destruct (alloc_all ds h) as [h1 es]. cbn [fst snd] in *. cbv beta iota.
  rewrite compile_documents_grouped by done. by rewrite Hval.
Qed.

(** Small runs.  Entities in front of the first title entity form a document
    without title key; without title entity everything is one document, the
    last value of a key winning; no entity, no document. *)
Example compile_leading_entities (h : heap) :
  values_of (compile_values
               [ {[ "author" := "A0" ]}; {[ "document_title" := "Doc1" ]} ]
               (Some ["document_title"]) h)
  = inr [ {[ "author" := "A0" ]}; {[ "document_title" := "Doc1" ]} ].
Proof. rewrite compile_values_grouped. by vm_compute. Qed.

Example compile_without_title (h : heap) :
  values_of (compile_values
               [ {[ "a" := "1" ]}; {[ "b" := "2" ]}; {[ "a" := "3" ]} ]
               (Some ["document_title"; "title"]) h)
  = inr [ <[ "b" := "2" ]> {[ "a" := "3" ]} ].
Proof. rewrite compile_values_grouped. by vm_compute. Qed.

Example compile_nothing (h : heap) :
  values_of (compile_values [] (Some ["document_title"]) h) = inr [].
Proof. rewrite compile_values_grouped. by vm_compute. Qed.

Example compile_empty_title_keys :
  compile_documents [0; 1; 2; 3] (Some []) example_heap
  = (example_heap, inl (ValueError title_keys_msg)).
Proof. reflexivity. Qed.

(** *** C1: the guard on [title_keys] *)

(** C1. Whatever the entities are, a call with [title_keys] absent ([None])
    or empty raises [ValueError] before anything else happens: the store is
    the one the call started in and no list is returned.  With a non-empty
    [title_keys] the call returns a list. *)
Theorem compile_documents_title_keys_guard
    (entities : list ref) (title_keys : option (list string)) (h : heap) :
  ((title_keys = None ∨ title_keys = Some [])
   ∧ compile_documents entities title_keys h
     = (h, inl (ValueError title_keys_msg)))
  ∨ ((∃ key keys, title_keys = Some (key :: keys))
     ∧ ∃ h' docs, compile_documents entities title_keys h = (h', inr docs)).
Proof.
  destruct title_keys as [[| key keys] |].
  - left. split; [by right | reflexivity].
  - right. split; [by exists key, keys |].
    rewrite compile_documents_ok. simpl. eauto.
  - left. split; [by left | reflexivity].
Qed.

(** *** C9: no empty document is returned *)

(** C9. For every entity sequence and every non-empty [title_keys], the call
    returns, and every document of the returned list is a non-empty mapping
    in the store the call leaves. *)
Theorem compile_documents_non_empty
    (entities : list ref) (key : string) (keys : list string) (h : heap) :
  ∃ h' docs,
    compile_documents entities (Some (key :: keys)) h = (h', inr docs)
    ∧ Forall (fun d => d ≠ ∅) (deref h' docs).
Proof.
  rewrite compile_documents_ok. simpl. eexists _, _. split; [reflexivity |].
  unfold deref. rewrite Forall_map.
  apply (compile_loop_non_empty (key :: keys) entities
           (LoopState (<[fresh (dom h) := ∅]> h) [] (fresh (dom h)))).
  simpl. constructor.
Qed.

(** *** C10: only the first document can lack a title key *)

(** C10. For every entity sequence and every non-empty [title_keys], the call
    returns; every returned document but the first has a key of [title_keys];
    and when the first returned document has none, the entity sequence starts
    with a non-title entity. *)
Theorem compile_documents_title_in_all_but_first
    (entities : list ref) (key : string) (keys : list string) (h : heap) :
  ∃ h' docs,
    compile_documents entities (Some (key :: keys)) h = (h', inr docs)
    ∧ (∀ i d, deref h' docs !! S i = Some d → title_entity (key :: keys) d)
    ∧ (∀ d, deref h' docs !! 0 = Some d → ¬ title_entity (key :: keys) d →
         ∃ e es, entities = e :: es ∧ ¬ title_entity (key :: keys) (h !!! e)).
Proof.
  rewrite compile_documents_ok. simpl. eexists _, _. split; [reflexivity |].
  set (tk := key :: keys). set (cur0 := fresh (dom h)).
  set (st0 := LoopState (<[cur0 := ∅]> h) [] cur0).
  split.
  - intros i d Hi.
    pose proof (compile_loop_tail_titled tk entities st0) as Htl.
    simpl in Htl. specialize (Htl (Forall_nil_2 _) (or_introl eq_refl)).
    unfold deref in Hi. rewrite list_lookup_fmap in Hi.
    destruct (result_of (compile_loop tk entities st0) !! S i) as [r |] eqn:Er;
      [| done].
    simpl in Hi. injection Hi as <-.
    rewrite Forall_lookup in Htl. apply (Htl i r).
    by rewrite lookup_tail.
  - intros d Hd Hnt.
    destruct entities as [| e es].
    + exfalso. simpl in Hd. unfold result_of in Hd. simpl in Hd.
      unfold cur0 in Hd. rewrite lookup_total_insert_eq in Hd.
      by rewrite (proj2 (truthy_false ∅) eq_refl) in Hd.
    + exists e, es. split; [done |]. intros He. apply Hnt.
      unfold st0, cur0 in Hd.
      rewrite compile_loop_cons, (first_step_title tk h e He) in Hd.
      pose proof (compile_loop_all_titled tk es
                    (LoopState (<[fresh (dom h) := ∅]> h) [] e)) as Hall.
      simpl in Hall. rewrite initial_lookup in Hall.
      specialize (Hall (Forall_nil_2 _) He).
      unfold deref in Hd. rewrite list_lookup_fmap in Hd.
      rewrite Forall_lookup in Hall.
      destruct (result_of _ !! 0) as [r |] eqn:Er; [| done].
      simpl in Hd. injection Hd as <-. exact (Hall 0 r Er).
Qed.

(** *** C2: the number of compiled documents *)

(** C2. When every entity is a live object holding a single-key mapping and
    [title_keys] is non-empty, the call returns, and the number of returned
    documents is the number of title entities plus one when a non-title
    entity comes before the first title entity.  So without title entity at
    most one document is returned, and none when there is no entity. *)
Theorem compile_documents_count
    (entities : list ref) (key : string) (keys : list string) (h : heap) :
  Forall (fun r => live h r ∧ flat_entity (h !!! r)) entities →
  ∃ h' docs,
    compile_documents entities (Some (key :: keys)) h = (h', inr docs)
    ∧ length docs
      = title_occurrences (key :: keys) (deref h entities)
        + (if decide (0 < leading_non_title (key :: keys) (deref h entities))
           then 1 else 0)
    ∧ (title_occurrences (key :: keys) (deref h entities) = 0 →
       (length docs ≤ 1)%nat)
    ∧ (entities = [] → docs = []).
Proof.
  intros Hflat. rewrite Forall_forall in Hflat.
  rewrite compile_documents_ok. simpl. eexists _, _. split; [reflexivity |].
  set (tk := key :: keys).
  set (st0 := LoopState (<[fresh (dom h) := ∅]> h) [] (fresh (dom h))).
  assert (Hlen : length (result_of (compile_loop tk entities st0))
      = title_occurrences tk (deref h entities)
        + (if decide (0 < leading_non_title tk (deref h entities))
           then 1 else 0)).
  { rewrite compile_loop_length; simpl.
    - assert (Hd : deref (<[fresh (dom h) := ∅]> h) entities
                   = deref h entities).
      { unfold deref. apply map_ext. intros r. apply initial_lookup. }
      rewrite Hd, lookup_total_insert_eq.
      destruct (decide (∅ ≠ ∅ ∨ _)) as [[Hn | Hn] | Hn];
        destruct (decide (0 < _)); (done || lia || tauto).
    - left. intros Hin. by apply (fresh_not_live h), Hflat.
    - intros r Hr. rewrite initial_lookup.
      destruct (Hflat _ Hr) as (_ & k & v & ->).
      apply map_non_empty_singleton. }
  split; [exact Hlen |]. split.
  - intros H0. rewrite Hlen, H0. destruct (decide _); lia.
  - intros ->. apply nil_length_inv. rewrite Hlen. reflexivity.
Qed.

Lemma compile_documents_count_witness :
  Forall (fun r => live example_heap r ∧ flat_entity (example_heap !!! r))
         [0; 1; 2; 3]
  ∧ ∃ h' docs,
      compile_documents [0; 1; 2; 3] (Some ["document_title"]) example_heap
      = (h', inr docs)
      ∧ length docs
        = title_occurrences ["document_title"] (deref example_heap [0; 1; 2; 3])
          + (if decide (0 < leading_non_title ["document_title"]
                                (deref example_heap [0; 1; 2; 3]))
             then 1 else 0)
      ∧ (title_occurrences ["document_title"]
           (deref example_heap [0; 1; 2; 3]) = 0 → (length docs ≤ 1)%nat)
      ∧ ([0; 1; 2; 3] = [] → docs = []).
Proof.
  assert (Hflat : Forall (fun r => live example_heap r
                                   ∧ flat_entity (example_heap !!! r))
                         [0; 1; 2; 3]).
  { repeat apply Forall_cons_2; [| | | | apply Forall_nil_2];
      (split; [unfold live; eexists; vm_compute; reflexivity |]).
    - exists "document_title", "Doc1". vm_compute. reflexivity.
    - exists "author", "A1". vm_compute. reflexivity.
    - exists "document_title", "Doc2". vm_compute. reflexivity.
    - exists "author", "A2". vm_compute. reflexivity. }
  split; [exact Hflat |].
  exact (compile_documents_count [0; 1; 2; 3] "document_title" []
           example_heap Hflat).
Defined.

(** *** C3: last write wins *)

(** C3. When every entity is a live object and [title_keys] is non-empty,
    the call returns; the returned documents are the title entities of the
    sequence and, when it ends non-empty, the accumulator the call started
    with; and in every object, so in each returned document, the value bound
    to a key is the value the key has in the last entity, among those merged
    into that object, that has the key; when no merged entity has the key,
    it is the value the object had before the call.  A merged entity thus
    replaces the value of a key the document already had, and a value is
    never a combination of several entity values. *)
Theorem compile_documents_last_write_wins
    (entities : list ref) (key : string) (keys : list string) (h : heap) :
  Forall (live h) entities →
  ∃ h' docs,
    compile_documents entities (Some (key :: keys)) h = (h', inr docs)
    ∧ (∀ r, r ∈ docs ↔
            (r ∈ entities ∧ title_entity (key :: keys) (h !!! r))
            ∨ (r = fresh (dom h) ∧ h' !!! r ≠ ∅))
    ∧ ∀ r,
        let merged :=
          merged_into (key :: keys) h (fresh (dom h)) entities r in
        ∀ k v,
          (h' !!! r) !! k = Some v ↔
            (∃ i d, merged !! i = Some d ∧ d !! k = Some v
                    ∧ ∀ j d', i < j → merged !! j = Some d' → d' !! k = None)
            ∨ ((∀ d, d ∈ merged → d !! k = None) ∧ (h !!! r) !! k = Some v).
Proof.
  intros Hlive. rewrite Forall_forall in Hlive.
  rewrite compile_documents_ok. simpl. eexists _, _. split; [reflexivity |].
  assert (Hcur : fresh (dom h) ∉ entities).
  { intros Hin. by apply (fresh_not_live h), Hlive. }
  split.
  - intros r. rewrite compile_loop_member by (by left). simpl.
    rewrite initial_lookup. split.
    + intros [Hr | [Hr | Hr]]; [by apply elem_of_nil in Hr | by left | by right].
    + intros [Hr | Hr]; [right; by left | right; by right].
  - intros r k v.
    rewrite compile_loop_merged by (by left). simpl.
    rewrite (merged_into_ext _ _ h).
    2:{ intros x _. by rewrite initial_lookup. }
    rewrite initial_lookup, fold_update_lookup.
    destruct (last_value k _) as [w |] eqn:E.
    + split.
      * intros [= ->]. left. by apply last_value_Some.
      * intros [Hl | [Hn _]].
        -- apply last_value_Some in Hl. congruence.
        -- apply last_value_None in Hn. congruence.
    + split.
      * intros Hv. right. split; [| done]. by apply last_value_None.
      * intros [Hl | [_ Hv]]; [| done].
        apply last_value_Some in Hl. congruence.
Qed.

Lemma compile_documents_last_write_wins_witness :
  Forall (live example_heap) [0; 1; 0; 3]
  ∧ ∃ h' docs,
      compile_documents [0; 1; 0; 3] (Some ["document_title"]) example_heap
      = (h', inr docs)
      ∧ (∀ r, r ∈ docs ↔
              (r ∈ [0; 1; 0; 3]
               ∧ title_entity ["document_title"] (example_heap !!! r))
              ∨ (r = fresh (dom example_heap) ∧ h' !!! r ≠ ∅))
      ∧ ∀ r,
          let merged :=
            merged_into ["document_title"] example_heap
                        (fresh (dom example_heap)) [0; 1; 0; 3] r in
          ∀ k v,
            (h' !!! r) !! k = Some v ↔
              (∃ i d, merged !! i = Some d ∧ d !! k = Some v
                      ∧ ∀ j d', i < j → merged !! j = Some d' →
                                d' !! k = None)
              ∨ ((∀ d, d ∈ merged → d !! k = None)
                 ∧ (example_heap !!! r) !! k = Some v).
Proof.
  assert (Hlive : Forall (live example_heap) [0; 1; 0; 3]).
  { repeat apply Forall_cons_2; [| | | | apply Forall_nil_2];
      unfold live; eexists; vm_compute; reflexivity. }
  split; [exact Hlive |].
  exact (compile_documents_last_write_wins [0; 1; 0; 3] "document_title" []
           example_heap Hlive).
Defined.

(** The same object given twice is one document: both positions of the
    returned list show the last value written to it. *)
Example compile_documents_shared_object :
  values_of (compile_documents [0; 1; 0; 3] (Some ["document_title"])
               example_heap)
  = inr [ <[ "author" := "A2" ]> {[ "document_title" := "Doc1" ]};
          <[ "author" := "A2" ]> {[ "document_title" := "Doc1" ]} ].
Proof. vm_compute. reflexivity. Qed.

(** *** C7: the example of the specification *)

(** C7. Called on the stream [{"document_title":"Doc1"}, {"author":"A1"},
    {"document_title":"Doc2"}, {"author":"A2"}] with
    [title_keys = ["document_title"]], in any store, [compile_documents]
    returns exactly [{"document_title":"Doc1","author":"A1"},
    {"document_title":"Doc2","author":"A2"}]. *)
Theorem compile_documents_example (h : heap) :
  values_of (compile_values example_entities (Some ["document_title"]) h)
  = inr example_documents.
Proof.
  rewrite compile_values_grouped.
  assert (Hg : grouped ["document_title"] example_entities
               = example_documents) by (vm_compute; reflexivity).
  by rewrite Hg.
Qed.

(** ** The Field Normalizer *)

Lemma set_missing_lookup r (h : heap) k0 r' k :
  (set_missing r h k0 !!! r') !! k =
  if decide (r' = r ∧ k = k0 ∧ (h !!! r) !! k0 = None)
  then Some Null else (h !!! r') !! k.
Proof.
  unfold set_missing, key_in.
  destruct (decide (r' = r ∧ k = k0 ∧ (h !!! r) !! k0 = None))
    as [(-> & -> & Hn) | Hno].
  - rewrite bool_decide_eq_false_2 by (rewrite Hn; by intros [? ?]).
    by rewrite lookup_total_insert_eq, lookup_insert_eq.
  - case_bool_decide as Hk; [done |].
    assert (Hn : (h !!! r) !! k0 = None).
    { destruct ((h !!! r) !! k0) eqn:E; [| done]. exfalso. apply Hk. eauto. }
    destruct (decide (r' = r)) as [-> | Hr].
    + rewrite lookup_total_insert_eq.
      destruct (decide (k = k0)) as [-> | Hkk]; [tauto |].
      by rewrite lookup_insert_ne.
    + by rewrite lookup_total_insert_ne.
Qed.

Lemma fill_doc_lookup keys (h : heap) r r' k :
  (fill_doc keys h r !!! r') !! k =
  if decide (r' = r) then with_sentinel keys (h !!! r) k
  else (h !!! r') !! k.
Proof.
  unfold fill_doc. revert h.
  induction keys as [| k0 keys IH]; intros h; simpl.
  - unfold with_sentinel. destruct (decide (r' = r)) as [-> | Hr]; [| done].
    destruct ((h !!! r) !! k); [done |].
    destruct (decide (k ∈ [])) as [Hin | _]; [| done].
    by apply elem_of_nil in Hin.
  - rewrite IH. destruct (decide (r' = r)) as [-> | Hr].
    + unfold with_sentinel. rewrite set_missing_lookup.
      destruct (decide (r = r ∧ k = k0 ∧ (h !!! r) !! k0 = None))
        as [(_ & -> & Hn) | Hno].
      * rewrite Hn. destruct (decide (k0 ∈ k0 :: keys)) as [_ | Hni]; [done |].
        exfalso. apply Hni, list_elem_of_here.
      * destruct ((h !!! r) !! k) eqn:E; [done |].
        destruct (decide (k = k0)) as [-> | Hkk]; [tauto |].
        destruct (decide (k ∈ keys)) as [Hin | Hni],
                 (decide (k ∈ k0 :: keys)) as [Hin' | Hni']; try done.
        -- exfalso. apply Hni'. by apply list_elem_of_further.
        -- exfalso. apply elem_of_cons in Hin' as [-> | Hin']; tauto.
    + rewrite set_missing_lookup.
      destruct (decide (r' = r ∧ _)) as [(Hr' & _) | _]; [done | done].
Qed.

Lemma with_sentinel_idemp keys (d d' : dict) k :
  (∀ k', d' !! k' = with_sentinel keys d k') →
  with_sentinel keys d' k = with_sentinel keys d k.
Proof.
  intros Hd'. unfold with_sentinel at 1. rewrite Hd'.
  unfold with_sentinel. destruct (d !! k); [done |].
  by destruct (decide (k ∈ keys)).
Qed.

Lemma expected_keys_lookup docs keys (h : heap) r k :
  (fst (expected_keys docs keys h) !!! r) !! k =
  if decide (r ∈ docs) then with_sentinel keys (h !!! r) k
  else (h !!! r) !! k.
Proof.
  unfold expected_keys. simpl. revert h.
  induction docs as [| d docs IH]; intros h; simpl.
  - destruct (decide (r ∈ [])) as [Hin | _]; [| done].
    by apply elem_of_nil in Hin.
  - rewrite IH. destruct (decide (r = d)) as [-> | Hrd].
    + destruct (decide (d ∈ d :: docs)) as [_ | Hni].
      2:{ exfalso. apply Hni, list_elem_of_here. }
      destruct (decide (d ∈ docs)) as [_ | _].
      * apply with_sentinel_idemp. intros k'.
        rewrite fill_doc_lookup. by destruct (decide (d = d)).
      * rewrite fill_doc_lookup. by destruct (decide (d = d)).
    + assert (Hsame : ∀ k', (fill_doc keys h d !!! r) !! k' = (h !!! r) !! k').
      { intros k'. rewrite fill_doc_lookup. by destruct (decide (r = d)). }
      destruct (decide (r ∈ docs)) as [Hin | Hni],
               (decide (r ∈ d :: docs)) as [Hin' | Hni'].
      * unfold with_sentinel. by rewrite Hsame.
      * exfalso. apply Hni'. by apply list_elem_of_further.
      * exfalso. apply elem_of_cons in Hin' as [-> | Hin']; tauto.
      * apply Hsame.
Qed.

(** A document that has every expected key is left alone. *)
Lemma fill_doc_complete keys (h : heap) r :
  (∀ k, k ∈ keys → is_Some ((h !!! r) !! k)) → fill_doc keys h r = h.
Proof.
  unfold fill_doc. induction keys as [| k0 keys IH]; intros Hall; [done |].
  simpl. unfold set_missing at 2.
  rewrite (proj2 (key_in_spec k0 _) (Hall k0 (list_elem_of_here _ _))).
  apply IH. intros k Hk. apply Hall. by apply list_elem_of_further.
Qed.

Lemma expected_keys_complete docs keys (h : heap) :
  (∀ r k, r ∈ docs → k ∈ keys → is_Some ((h !!! r) !! k)) →
  expected_keys docs keys h = (h, docs).
Proof.
  unfold expected_keys. intros Hall. f_equal.
  induction docs as [| d docs IH]; [done |]. simpl.
  rewrite fill_doc_complete.
  - apply IH. intros r k Hr Hk. apply Hall; [| done].
    by apply list_elem_of_further.
  - intros k Hk. apply Hall; [apply list_elem_of_here | done].
Qed.

(** The example of the specification for the Field Normalizer:
    [expected_keys([{"title":"X"}], ["title","author"])] yields
    [[{"title":"X","author":"Null"}]]. *)
Lemma expected_keys_example (h : heap) :
  let docs := alloc_all [ {[ "title" := "X" ]} ] h in
  let res := expected_keys (snd docs) ["title"; "author"] (fst docs) in
  deref (fst res) (snd res) = [ <[ "author" := "Null" ]> {[ "title" := "X" ]} ].
Proof.
  cbv zeta. simpl. unfold fill_doc. simpl. unfold set_missing.
  rewrite lookup_total_insert_eq.
  assert (H1 : key_in "title" ({[ "title" := "X" ]} : dict) = true)
    by (vm_compute; reflexivity).
  rewrite H1. rewrite lookup_total_insert_eq.
  assert (H2 : key_in "author" ({[ "title" := "X" ]} : dict) = false)
    by (vm_compute; reflexivity).
  rewrite H2. by rewrite lookup_total_insert_eq.
Qed.

(** *** C5: missing keys get the sentinel, present keys are kept *)

(** C5. After [expected_keys], which returns the list it was given, every
    document of the list has every expected key; a key the document had
    before keeps its value, whether it is an expected key or not; an
    expected key the document did not have is bound to ["Null"]; and no
    other key is added. *)
Theorem expected_keys_fills_missing
    (compiled_documents : list ref) (expected_key_list : list string)
    (h : heap) :
  snd (expected_keys compiled_documents expected_key_list h)
  = compiled_documents
  ∧ ∀ r k, r ∈ compiled_documents →
      let before := h !!! r in
      let after :=
        fst (expected_keys compiled_documents expected_key_list h) !!! r in
      (k ∈ expected_key_list → is_Some (after !! k))
      ∧ (∀ v, before !! k = Some v → after !! k = Some v)
      ∧ (before !! k = None → k ∈ expected_key_list →
         after !! k = Some "Null")
      ∧ (before !! k = None → k ∉ expected_key_list → after !! k = None).
Proof.
  split; [reflexivity |]. intros r k Hr. cbv zeta.
  rewrite expected_keys_lookup.
  destruct (decide (r ∈ compiled_documents)) as [_ | Hn]; [| done].
  unfold with_sentinel.
  destruct ((h !!! r) !! k) as [v |] eqn:E;
    destruct (decide (k ∈ expected_key_list)) as [Hin | Hni];
    repeat split; intros; try done; try congruence; eauto.
Qed.

(** *** C4: idempotence *)

(** C4. Running [expected_keys] on its own result, with the same key list,
    changes nothing: the store and the returned list are those of the first
    run, hence so are the values of the documents. *)
Theorem expected_keys_idempotent
    (compiled_documents : list ref) (expected_key_list : list string)
    (h : heap) :
  let once := expected_keys compiled_documents expected_key_list h in
  let twice := expected_keys (snd once) expected_key_list (fst once) in
  twice = once
  ∧ deref (fst twice) (snd twice) = deref (fst once) (snd once).
Proof.
  cbv zeta. change (snd (expected_keys compiled_documents expected_key_list h))
    with compiled_documents.
  assert (Heq : expected_keys compiled_documents expected_key_list
      (fst (expected_keys compiled_documents expected_key_list h))
    = expected_keys compiled_documents expected_key_list h).
  { rewrite expected_keys_complete.
    - reflexivity.
    - intros r k Hr Hk. rewrite expected_keys_lookup.
      destruct (decide (r ∈ compiled_documents)) as [_ | Hn]; [| done].
      unfold with_sentinel. destruct ((h !!! r) !! k); [eauto |].
      destruct (decide (k ∈ expected_key_list)); [eauto | done]. }
  split; [exact Heq | by rewrite Heq].
Qed.

(** ** The Entity Flattener *)

Lemma join_spaced texts : join " " texts = spaced texts.
Proof.
  unfold join. induction texts as [| t texts IH]; [done |].
  simpl. destruct texts as [| t' texts]; [done |]. by rewrite IH.
Qed.

(** The inner loop allocates one entity per label entry, in order. *)
Lemma flatten_items_alloc items (h : heap) acc :
  fold_left flatten_item items (h, acc) =
  (fst (alloc_all (map entity_of items) h),
   acc ++ snd (alloc_all (map entity_of items) h)).
Proof.
  revert h acc. induction items as [| item items IH]; intros h acc; simpl.
  - by rewrite app_nil_r.
  - unfold flatten_item at 2. simpl. rewrite IH, join_spaced.
    fold (entity_of item).
    destruct (alloc_all _ _) as [h2 rs]. simpl.
    by rewrite <- app_assoc.
Qed.

Lemma flatten_documents_alloc data (h : heap) acc :
  fold_left flatten_document data (h, acc) =
  (fst (alloc_all (flattened data) h),
   acc ++ snd (alloc_all (flattened data) h)).
Proof.
  revert h acc. induction data as [| document data IH]; intros h acc; simpl.
  - by rewrite app_nil_r.
  - unfold flatten_document at 2. fold (entries_of document).
    rewrite flatten_items_alloc, IH.
    unfold flattened. simpl. rewrite alloc_all_app. simpl.
    by rewrite <- app_assoc.
Qed.

Lemma extract_entities_alloc data (h : heap) :
  extract_entities data h = alloc_all (flattened data) h.
Proof.
  unfold extract_entities. rewrite flatten_documents_alloc. simpl.
  by destruct (alloc_all (flattened data) h).
Qed.

Lemma flattened_length data :
  length (flattened data)
  = sum_list (map (fun document => length (entries_of document)) data).
Proof.
  unfold flattened. induction data as [| document data IH]; [done |].
  simpl. by rewrite length_app, length_map, IH.
Qed.

Lemma flattened_app data1 data2 :
  flattened (data1 ++ data2) = flattened data1 ++ flattened data2.
Proof. unfold flattened. apply flat_map_app. Qed.

(** A small run: two records, the second without ["labels"]; an entry
    without span gives the empty text. *)
Example extract_entities_example :
  let data :=
    [ {| labels := Some
           [ {| label := "title";
                value := [ {| text := "Hello" |}; {| text := "World" |} ] |};
             {| label := "author"; value := [] |};
             {| label := "title"; value := [ {| text := "Hello" |} ] |} ] |};
      {| labels := None |} ] in
  let res := extract_entities data ∅ in
  deref (fst res) (snd res)
  = [ {[ "title" := "Hello World" ]}; {[ "author" := "" ]};
      {[ "title" := "Hello" ]} ].
Proof. vm_compute. reflexivity. Qed.

(** *** C6: one entity per label entry, in order *)

(** C6. For every sequence of label records, [extract_entities] returns one
    new single-key dictionary per label entry, the label mapped to the texts
    of the entry's spans separated by single spaces, in record order and then
    label order; nothing is removed, so the length is the total number of
    label entries; a record without label entry contributes nothing; and the
    objects of the store the call started in are left as they were. *)
Theorem extract_entities_flattens (data : list LabelRecord) (h : heap) :
  let res := extract_entities data h in
  deref (fst res) (snd res) = flattened data
  ∧ length (snd res)
    = sum_list (map (fun document => length (entries_of document)) data)
  ∧ NoDup (snd res)
  ∧ Forall (fun r => ¬ live h r ∧ live (fst res) r) (snd res)
  ∧ (∀ r, live h r → fst res !! r = h !! r)
  ∧ (∀ before document after,
       data = before ++ document :: after → entries_of document = [] →
       deref (fst res) (snd res) = flattened (before ++ after)).
Proof.
  cbv zeta. rewrite extract_entities_alloc.
  pose proof (alloc_all_spec (flattened data) h)
    as (Hnd & Hlive & Hval & Hframe).
  cbv zeta in *.
  split; [exact Hval |]. split.
  { rewrite <- flattened_length. apply (f_equal length) in Hval.
    unfold deref in Hval. by rewrite length_map in Hval. }
  split; [exact Hnd |]. split.
  { rewrite Forall_forall in Hlive. apply Forall_forall. intros r Hr.
    split; [| by apply Hlive]. intros Hl. by apply (Hframe r Hl). }
  split; [intros r Hl; by apply Hframe |].
  intros before document after -> Hempty. rewrite Hval.
  rewrite !flattened_app. f_equal.
  unfold flattened. simpl. by rewrite Hempty.
Qed.

(** * Further properties *)

(** ** Strings *)

Lemma append_nil_l (q : string) : "" +:+ q = q.
Proof. reflexivity. Qed.

Lemma append_cons_l a (p q : string) : String a p +:+ q = String a (p +:+ q).
Proof. reflexivity. Qed.

Lemma prefix_spec (p s : string) :
  String.prefix p s = true ↔ ∃ q, s = p +:+ q.
Proof.
  revert s. induction p as [| a p IH]; intros s.
  - split; [intros _; by exists s | intros _; by destruct s].
  - destruct s as [| b s]; simpl.
    + split; [done |]. intros (q & Hq). by rewrite append_cons_l in Hq.
    + destruct (Ascii.ascii_dec a b) as [-> | Hne].
      * rewrite IH. split.
        -- intros (q & ->). by exists q.
        -- intros (q & Hq). rewrite append_cons_l in Hq.
           injection Hq as ->. by exists q.
      * split; [done |]. intros (q & Hq). rewrite append_cons_l in Hq.
        by injection Hq.
Qed.

Lemma str_in_unfold (value s : string) :
  str_in value s =
  if String.prefix value s then true
  else match s with
       | EmptyString => false
       | String _ s' => str_in value s'
       end.
Proof. by destruct s. Qed.

Lemma endswith_unfold (s suffix : string) :
  endswith s suffix =
  if String.eqb s suffix then true
  else match s with
       | EmptyString => false
       | String _ s' => endswith s' suffix
       end.
Proof. by destruct s. Qed.

(** [str_in value s] holds exactly when [value] occurs in [s]. *)
Lemma str_in_spec (value s : string) :
  str_in value s = true ↔ ∃ p q, s = p +:+ value +:+ q.
Proof.
  induction s as [| a s IH]; rewrite str_in_unfold.
  - destruct (String.prefix value "") eqn:E.
    + split; [| done]. intros _. apply prefix_spec in E as (q & Hq).
      exists "", q. exact Hq.
    + split; [done |]. intros (p & q & Hpq).
      destruct p; [| by rewrite append_cons_l in Hpq].
      rewrite append_nil_l in Hpq.
      assert (String.prefix value "" = true); [| congruence].
      apply prefix_spec. by exists q.
  - destruct (String.prefix value (String a s)) eqn:E.
    + split; [| done]. intros _. apply prefix_spec in E as (q & Hq).
      exists "", q. exact Hq.
    + rewrite IH. split.
      * intros (p & q & ->). by exists (String a p), q.
      * intros (p & q & Hpq). destruct p as [| b p].
        -- rewrite append_nil_l in Hpq.
           assert (String.prefix value (String a s) = true); [| congruence].
           apply prefix_spec. by exists q.
        -- rewrite append_cons_l in Hpq. injection Hpq as <- ->.
           by exists p, q.
Qed.

(** [endswith s suffix] holds exactly when [s] ends with [suffix]. *)
Lemma endswith_spec (s suffix : string) :
  endswith s suffix = true ↔ ∃ p, s = p +:+ suffix.
Proof.
  induction s as [| a s IH]; rewrite endswith_unfold.
  - destruct (String.eqb "" suffix) eqn:E.
    + split; [| done]. intros _. apply String.eqb_eq in E as <-. by exists "".
    + split; [done |]. intros (p & Hp).
      destruct p; [| by rewrite append_cons_l in Hp].
      rewrite append_nil_l in Hp. subst. by rewrite String.eqb_refl in E.
  - destruct (String.eqb (String a s) suffix) eqn:E.
    + split; [| done]. intros _. apply String.eqb_eq in E as <-. by exists "".
    + rewrite IH. split.
      * intros (p & ->). by exists (String a p).
      * intros (p & Hp). destruct p as [| b p].
        -- rewrite append_nil_l in Hp. subst. by rewrite String.eqb_refl in E.
        -- rewrite append_cons_l in Hp. injection Hp as <- ->. by exists p.
Qed.

Lemma str_in_empty (s : string) : str_in "" s = true.
Proof. apply str_in_spec. by exists "", s. Qed.

(** ** The Label Loader *)

Section label_loader_facts.
Context {bytes J : Type}.
Context (readall : string → option bytes).
Context (decode : bytes → option string).
Context (json_loads : string → option J).

Lemma loaded_texts_cons filter_value blob_name blob_list :
  loaded_texts readall decode filter_value (blob_name :: blob_list) =
  (if blob_selected filter_value blob_name then
     match download_blob_to_string readall decode blob_name with
     | Some (String _ _ as blob_content) => [blob_content]
     | _ => []
     end
   else [])
  ++ loaded_texts readall decode filter_value blob_list.
Proof.
  unfold loaded_texts. simpl.
  destruct (blob_selected filter_value blob_name); [| done].
  by destruct (download_blob_to_string readall decode blob_name)
    as [[| a s] |].
Qed.

Lemma loaded_texts_app filter_value blob_list1 blob_list2 :
  loaded_texts readall decode filter_value (blob_list1 ++ blob_list2) =
  loaded_texts readall decode filter_value blob_list1
  ++ loaded_texts readall decode filter_value blob_list2.
Proof.
  induction blob_list1 as [| b bl IH]; [done |].
  rewrite <- app_comm_cons. by rewrite !loaded_texts_cons, IH, app_assoc.
Qed.

(** The loop parses the loaded texts one after the other and stops at the
    first that does not parse. *)
Lemma load_blobs_texts filter_value blob_list labels :
  load_blobs readall decode json_loads filter_value blob_list labels =
  (fun parsed => labels ++ parsed)
    <$> mapM json_loads (loaded_texts readall decode filter_value blob_list).
Proof.
  revert labels. induction blob_list as [| b bl IH]; intros labels.
  - simpl. by rewrite app_nil_r.
  - rewrite loaded_texts_cons. simpl.
    destruct (blob_selected filter_value b); [| by rewrite IH].
    destruct (download_blob_to_string readall decode b) as [[| a s] |];
      [by rewrite IH | | by rewrite IH].
    simpl. destruct (json_loads (String a s)) as [parsed |]; [| done].
    rewrite IH. simpl.
    destruct (mapM json_loads _); simpl; [| done].
    by rewrite <- app_assoc.
Qed.

Lemma mapM_all (texts : list string) :
  Forall (fun t => is_Some (json_loads t)) texts →
  mapM json_loads texts = Some (omap json_loads texts).
Proof.
  induction 1 as [| t texts [parsed Ht] _ IH]; [done |].
  simpl. rewrite Ht. simpl. by rewrite IH.
Qed.

Lemma omap_all_length (texts : list string) :
  Forall (fun t => is_Some (json_loads t)) texts →
  length (omap json_loads texts) = length texts.
Proof.
  induction 1 as [| t texts [parsed Ht] _ IH]; [done |].
  simpl. rewrite Ht. simpl. f_equal. exact IH.
Qed.

Lemma mapM_some_fails (texts : list string) :
  Exists (fun t => json_loads t = None) texts →
  mapM json_loads texts = None.
Proof.
  induction 1 as [t texts Ht | t texts _ IH]; simpl.
  - by rewrite Ht.
  - rewrite IH. by destruct (json_loads t).
Qed.

(** The test on the name of a blob holds exactly when the name ends in
    [".json"] and no filter value occurs anywhere in it, as a substring and
    with the same case. *)
Lemma blob_selected_spec (filter_value : list string)
    (blob_name : string) :
  blob_selected filter_value blob_name = true
  ↔ (∃ stem, blob_name = stem +:+ ".json")
    ∧ Forall (fun value => ¬ ∃ before after,
                              blob_name = before +:+ value +:+ after)
             filter_value.
Proof.
  unfold blob_selected. rewrite andb_true_iff, endswith_spec.
  rewrite forallb_forall, Forall_forall.
  split; intros [Hjson Hfilter]; (split; [done |]); intros value Hvalue.
  - apply list_elem_of_In, Hfilter, negb_true_iff in Hvalue.
    rewrite <- str_in_spec. by rewrite Hvalue.
  - apply list_elem_of_In, Hfilter in Hvalue.
    rewrite <- str_in_spec in Hvalue.
    by destruct (str_in value blob_name).
Qed.

(** X1. Where the labels come from.  A value is among the labels that
    [extract_labels_from_blob] returns exactly when the container could be
    listed, every blob of the listing that is read to a non-empty text
    parses, and the value is what [json.loads] gave for one of them.  The
    blobs read are those whose name ends in [".json"] and in whose name no
    filter value occurs; no label comes from another blob, and one text
    that does not parse leaves no label at all. *)
Theorem extract_labels_provenance
    (list_blobs : option (list string)) (filter_value : list string)
    (label : J) :
  let loaded blob_list blob_name blob_content :=
    blob_name ∈ blob_list
    ∧ (∃ stem, blob_name = stem +:+ ".json")
    ∧ Forall (fun value => ¬ ∃ before after,
                              blob_name = before +:+ value +:+ after)
             filter_value
    ∧ download_blob_to_string readall decode blob_name = Some blob_content
    ∧ blob_content ≠ "" in
  label ∈ extract_labels_from_blob readall decode json_loads
            list_blobs filter_value
  ↔ ∃ blob_list,
      list_blobs = Some blob_list
      ∧ (∀ blob_name blob_content,
           loaded blob_list blob_name blob_content →
           is_Some (json_loads blob_content))
      ∧ ∃ blob_name blob_content,
          loaded blob_list blob_name blob_content
          ∧ json_loads blob_content = Some label.
Proof.
  cbv zeta.
  assert (Hloaded : ∀ blob_list text,
    text ∈ loaded_texts readall decode filter_value blob_list
    ↔ ∃ blob_name,
        blob_name ∈ blob_list
        ∧ (∃ stem, blob_name = stem +:+ ".json")
        ∧ Forall (fun value => ¬ ∃ before after,
                                  blob_name = before +:+ value +:+ after)
                 filter_value
        ∧ download_blob_to_string readall decode blob_name = Some text
        ∧ text ≠ "").
  { intros blob_list text. unfold loaded_texts.
    rewrite list_elem_of_omap. split.
    - intros (blob_name & Hname & Hsel). exists blob_name.
      destruct (blob_selected filter_value blob_name) eqn:Hs; [| done].
      apply blob_selected_spec in Hs as [Hjson Hfilter].
      destruct (download_blob_to_string readall decode blob_name)
        as [[| a s] |] eqn:Hd; [done | | done].
      injection Hsel as <-. by repeat split.
    - intros (blob_name & Hname & Hjson & Hfilter & Hd & Hne).
      exists blob_name. split; [done |].
      rewrite (proj2 (blob_selected_spec filter_value blob_name));
        [| by split].
      rewrite Hd. by destruct text. }
  split.
  - destruct list_blobs as [blob_list |];
      [| intros Hin; by apply elem_of_nil in Hin].
    unfold extract_labels_from_blob. rewrite load_blobs_texts.
    destruct (mapM json_loads _) as [labels |] eqn:E;
      [| intros Hin; by apply elem_of_nil in Hin].
    simpl. apply mapM_Some in E. intros Hlabel.
    exists blob_list. split; [done |]. split.
    + intros blob_name blob_content Hl.
      assert (Hin : blob_content
                    ∈ loaded_texts readall decode filter_value blob_list)
        by (apply Hloaded; by exists blob_name).
      apply list_elem_of_lookup in Hin as (i & Hi).
      destruct (Forall2_lookup_l _ _ _ _ _ E Hi) as (parsed & _ & Hp).
      by exists parsed.
    + apply list_elem_of_lookup in Hlabel as (i & Hi).
      destruct (Forall2_lookup_r _ _ _ _ _ E Hi) as (text & Htext & Hparse).
      assert (Hin : text ∈ loaded_texts readall decode filter_value blob_list)
        by (apply list_elem_of_lookup; by exists i).
      apply Hloaded in Hin as (blob_name & Hl).
      by exists blob_name, text.
  - intros (blob_list & -> & Hall & blob_name & blob_content & Hl & Hp).
    unfold extract_labels_from_blob. rewrite load_blobs_texts.
    rewrite mapM_all.
    + simpl. apply list_elem_of_omap. exists blob_content.
      split; [| done]. apply Hloaded. by exists blob_name.
    + apply Forall_forall. intros text Hin.
      apply Hloaded in Hin as (name & Hin). by apply (Hall name).
Qed.

(** X2. All or nothing.  When every loaded text parses, the result is the
    parsed contents of the selected, readable, non-empty blobs in listing
    order; when one of them does not parse, the result is empty, whatever
    was parsed before. *)
Theorem extract_labels_all_or_nothing
    (blob_list filter_value : list string) :
  let texts := loaded_texts readall decode filter_value blob_list in
  let labels :=
    extract_labels_from_blob readall decode json_loads
      (Some blob_list) filter_value in
  (Forall (fun t => is_Some (json_loads t)) texts →
   labels = omap json_loads texts
   ∧ length labels = length texts)
  ∧ (Exists (fun t => json_loads t = None) texts → labels = []).
Proof.
  cbv zeta. unfold extract_labels_from_blob.
  rewrite load_blobs_texts. split.
  - intros Hall. rewrite (mapM_all _ Hall). simpl. split; [done |].
    by apply omap_all_length.
  - intros Hex. by rewrite (mapM_some_fails _ Hex).
Qed.

(** X3. A blob that is not selected, cannot be read or is empty has no
    influence on the result. *)
Theorem extract_labels_skips (before after filter_value : list string)
    (blob_name : string) :
  blob_selected filter_value blob_name = false
  ∨ download_blob_to_string readall decode blob_name = None
  ∨ download_blob_to_string readall decode blob_name = Some "" →
  extract_labels_from_blob readall decode json_loads
    (Some (before ++ blob_name :: after)) filter_value
  = extract_labels_from_blob readall decode json_loads
      (Some (before ++ after)) filter_value.
Proof.
  intros Hskip. unfold extract_labels_from_blob.
  rewrite !load_blobs_texts, !loaded_texts_app, loaded_texts_cons.
  destruct Hskip as [-> | [-> | ->]]; [done | |];
    by destruct (blob_selected filter_value blob_name).
Qed.

(** X4. An empty string among the filter values deselects every blob: the
    result is empty for every container. *)
Theorem extract_labels_empty_filter_value
    (list_blobs : option (list string)) (filter1 filter2 : list string) :
  extract_labels_from_blob readall decode json_loads
    list_blobs (filter1 ++ "" :: filter2) = [].
Proof.
  destruct list_blobs as [blob_list |]; [| done].
  unfold extract_labels_from_blob. rewrite load_blobs_texts.
  assert (Hnone : loaded_texts readall decode (filter1 ++ "" :: filter2)
                    blob_list = []).
  { induction blob_list as [| b bl IH]; [done |].
    rewrite loaded_texts_cons, IH.
    assert (Hsel : blob_selected (filter1 ++ "" :: filter2) b = false).
    { unfold blob_selected. rewrite forallb_app. simpl.
      rewrite str_in_empty. simpl.
      by rewrite andb_false_r, andb_false_r. }
    by rewrite Hsel. }
  by rewrite Hnone.
Qed.
End label_loader_facts.

Lemma extract_labels_skips_witness :
  (blob_selected ["config"] "notes.txt" = false
   ∨ download_blob_to_string (fun name => Some name) Some "notes.txt" = None
   ∨ download_blob_to_string (fun name => Some name) Some "notes.txt"
     = Some "")
  ∧ extract_labels_from_blob (fun name => Some name) Some Some
      (Some (["a.json"] ++ "notes.txt" :: ["b.json"])) ["config"]
    = extract_labels_from_blob (fun name => Some name) Some Some
        (Some (["a.json"] ++ ["b.json"])) ["config"].
Proof.
  assert (Hskip :
    blob_selected ["config"] "notes.txt" = false
    ∨ download_blob_to_string (fun name => Some name) Some "notes.txt" = None
    ∨ download_blob_to_string (fun name => Some name) Some "notes.txt"
      = Some "").
  { left. reflexivity. }
  split; [exact Hskip |].
  exact (extract_labels_skips (fun name => Some name) Some Some
           ["a.json"] ["b.json"] ["config"] "notes.txt" Hskip).
Defined.

(** ** The index definition *)

(** Three tests of which every element passes exactly one split a list into
    three parts that together are the list, up to order. *)
Lemma filter_three_ways {A} (P Q R : A → bool) (l : list A) :
  (∀ x, (P x = true ∧ Q x = false ∧ R x = false)
        ∨ (P x = false ∧ Q x = true ∧ R x = false)
        ∨ (P x = false ∧ Q x = false ∧ R x = true)) →
  List.filter P l ++ List.filter Q l ++ List.filter R l ≡ₚ l.
Proof.
  intros Hone. induction l as [| x l IH]; [done |]. simpl.
  destruct (Hone x) as [(-> & -> & ->) | [(-> & -> & ->) | (-> & -> & ->)]].
  - simpl. by rewrite IH.
  - simpl. rewrite <- Permutation_middle. by rewrite IH.
  - rewrite app_assoc, <- Permutation_middle, <- app_assoc. by rewrite IH.
Qed.

Section index_facts.
Context {data_type client client_error index_result : Type}.
Context (String_type Single_collection : data_type).
Context (openai_endpoint_name openai_secret_key_name : option string).
Context (search_index_client : client_error + client).
Context (create_or_update_index :
           client → Index.search_index data_type → option index_result).

Lemma custom_field_classes (field : Index.custom_field data_type) :
  (Index.is_id field = true ∧ Index.is_plain field = false
   ∧ Index.is_vector field = false)
  ∨ (Index.is_id field = false ∧ Index.is_plain field = true
     ∧ Index.is_vector field = false)
  ∨ (Index.is_id field = false ∧ Index.is_plain field = false
     ∧ Index.is_vector field = true).
Proof.
  unfold Index.is_id, Index.is_plain, Index.is_vector.
  destruct (String.eqb (Index.name field) "id") eqn:E.
  - apply String.eqb_eq in E. rewrite E. left. by vm_compute.
  - destruct (endswith (Index.name field) "_vector"); simpl; tauto.
Qed.

Lemma fields_to_use_names (embedding_dimensions : Z)
    (custom_fields : list (Index.custom_field data_type)) :
  map (fun f => (Index.field_name f, Index.field_type f))
      (Index.fields_to_use String_type Single_collection
         embedding_dimensions (Some custom_fields))
  ≡ₚ map (fun c => (Index.name c, Index.type c)) custom_fields.
Proof.
  unfold Index.fields_to_use. rewrite !map_app, !map_map. simpl.
  rewrite <- !map_app.
  by rewrite (filter_three_ways _ _ _ _ custom_field_classes).
Qed.

Lemma fields_to_use_length (embedding_dimensions : Z)
    (custom_fields : list (Index.custom_field data_type)) :
  length (Index.fields_to_use String_type Single_collection
            embedding_dimensions (Some custom_fields))
  = length custom_fields.
Proof.
  pose proof (fields_to_use_names embedding_dimensions custom_fields)
    as Hperm.
  apply Permutation_length in Hperm. by rewrite !length_map in Hperm.
Qed.

(** X5. Every entry of [custom_fields] gives exactly one field of the
    index, with its name and type: the fields are the entries up to
    order, the fields named ["id"] first, then the ordinary ones, then
    those whose name ends in ["_vector"]. *)
Theorem index_fields_permutation (embedding_dimensions : Z)
    (custom_fields : list (Index.custom_field data_type)) :
  let fields :=
    Index.fields_to_use String_type Single_collection embedding_dimensions
      (Some custom_fields) in
  map (fun f => (Index.field_name f, Index.field_type f)) fields
  ≡ₚ map (fun c => (Index.name c, Index.type c)) custom_fields
  ∧ length fields = length custom_fields
  ∧ map Index.field_name fields
    = map Index.name (List.filter Index.is_id custom_fields)
      ++ map Index.name (List.filter Index.is_plain custom_fields)
      ++ map Index.name (List.filter Index.is_vector custom_fields).
Proof.
  cbv zeta. split; [apply fields_to_use_names |].
  split; [apply fields_to_use_length |].
  unfold Index.fields_to_use. by rewrite !map_app, !map_map.
Qed.

(** X6. The key fields of the index are exactly the fields named ["id"],
    as many as [custom_fields] has entries of that name, none or several
    included; the vector search settings are given exactly to the fields
    whose name ends in ["_vector"], with the dimensions passed to the
    function. *)
Theorem index_key_and_vector_fields (embedding_dimensions : Z)
    (custom_fields : list (Index.custom_field data_type)) :
  let fields :=
    Index.fields_to_use String_type Single_collection embedding_dimensions
      (Some custom_fields) in
  Forall (fun f =>
            (Index.key f = Some true ↔ Index.field_name f = "id")
            ∧ (Index.made_by f = Index.SimpleField
               ↔ Index.field_name f = "id")
            ∧ (Index.vector_search_dimensions f = Some embedding_dimensions
               ↔ endswith (Index.field_name f) "_vector" = true)
            ∧ (Index.vector_search_profile_name f = Some "vector_profile"
               ↔ endswith (Index.field_name f) "_vector" = true))
         fields
  ∧ length (List.filter (fun f => bool_decide (Index.key f = Some true))
                        fields)
    = length (List.filter Index.is_id custom_fields).
Proof.
  cbv zeta. unfold Index.fields_to_use. split.
  - rewrite !Forall_app, !Forall_map. repeat split.
    + apply Forall_forall. intros c Hc.
      apply list_elem_of_In, filter_In in Hc as [_ Hc].
      unfold Index.is_id in Hc. apply String.eqb_eq in Hc. simpl.
      rewrite Hc. by vm_compute.
    + apply Forall_forall. intros c Hc.
      apply list_elem_of_In, filter_In in Hc as [_ Hc].
      unfold Index.is_plain in Hc.
      apply andb_true_iff in Hc as [Hid Hv].
      apply negb_true_iff in Hid, Hv. simpl. rewrite Hv.
      apply String.eqb_neq in Hid. repeat split; done.
    + apply Forall_forall. intros c Hc.
      apply list_elem_of_In, filter_In in Hc as [_ Hc].
      unfold Index.is_vector in Hc. simpl. rewrite Hc.
      assert (Hid : Index.name c ≠ "id").
      { intros Hid. rewrite Hid in Hc. by vm_compute in Hc. }
      repeat split; done.
  - rewrite !List.filter_app, !length_app.
    assert (H1 : ∀ l : list (Index.custom_field data_type),
      List.filter (fun f => bool_decide (Index.key f = Some true))
                  (map Index.simple_field l)
      = map Index.simple_field l).
    { intros l. induction l as [| c l IH]; [done |]. simpl. by rewrite IH. }
    assert (H2 : ∀ l : list (Index.custom_field data_type),
      List.filter (fun f => bool_decide (Index.key f = Some true))
                  (map Index.searchable_field l) = []).
    { intros l. induction l as [| c l IH]; [done |]. simpl. by rewrite IH. }
    assert (H3 : ∀ l : list (Index.custom_field data_type),
      List.filter (fun f => bool_decide (Index.key f = Some true))
                  (map (Index.vector_field embedding_dimensions) l) = []).
    { intros l. induction l as [| c l IH]; [done |]. simpl. by rewrite IH. }
    rewrite H1, H2, H3, length_map. simpl. lia.
Qed.

(** X7. The outcome of [create_custom_index], in the order of its checks.
    Without embedding deployment it raises its first [ValueError], whatever
    the other arguments are; else, when building the client raises, that
    exception leaves the function before the fields are looked at; else,
    for an empty list of custom fields, it raises its second [ValueError];
    in every other case it hands a non-empty field list to the service and
    returns the service's answer, [None] when the service call failed. *)
Theorem create_custom_index_outcome (index_name : string)
    (embedding_dimensions : Z)
    (custom_fields : option (list (Index.custom_field data_type)))
    (embedding_deployment : option string) :
  let result :=
    Index.create_custom_index String_type Single_collection
      openai_endpoint_name openai_secret_key_name
      search_index_client create_or_update_index index_name
      embedding_dimensions custom_fields embedding_deployment in
  (embedding_deployment = None
   ∧ result
     = inl (Index.Raises
              (ValueError "Embedding deployment must be provided")))
  ∨ (∃ e, is_Some embedding_deployment
          ∧ search_index_client = inl e
          ∧ result = inl (Index.Client_raises e))
  ∨ (∃ index_client,
       is_Some embedding_deployment
       ∧ search_index_client = inr index_client
       ∧ custom_fields = Some []
       ∧ result
         = inl (Index.Raises
                  (ValueError "No fields defined for the index.")))
  ∨ (∃ deployment index_client,
       embedding_deployment = Some deployment
       ∧ search_index_client = inr index_client
       ∧ custom_fields ≠ Some []
       ∧ Index.fields_to_use String_type Single_collection
           embedding_dimensions custom_fields ≠ []
       ∧ result
         = inr (create_or_update_index index_client
                  {| Index.index_name := index_name;
                     Index.fields :=
                       Index.fields_to_use String_type Single_collection
                         embedding_dimensions custom_fields;
                     Index.vector_search :=
                       Index.vector_search_of openai_endpoint_name
                         openai_secret_key_name deployment |})).
Proof.
  cbv zeta. destruct embedding_deployment as [deployment |]; [| by left].
  right. unfold Index.create_custom_index.
  destruct search_index_client as [e | index_client].
  { left. exists e. split; [by eexists |]. by split. }
  right. destruct custom_fields as [[| c cfs] |].
  - left. exists index_client. split; [by eexists |]. by repeat split.
  - right. exists deployment, index_client.
    split; [done |]. split; [done |]. split; [done |].
    pose proof (fields_to_use_length embedding_dimensions (c :: cfs))
      as Hlen.
    destruct (Index.fields_to_use _ _ _ _) as [| f fs] eqn:E;
      [done | by split].
  - right. exists deployment, index_client.
    split; [done |]. split; [done |]. split; [done |]. by split.
Qed.
End index_facts.

(** ** Preparing the documents for upload *)

Lemma omap_cons_Some {A B} (f : A → option B) x y l :
  f x = Some y → omap f (x :: l) = y :: omap f l.
Proof. intros H. simpl. by rewrite H. Qed.

Section final_facts.
Context {vector : Type}.
Context (embedding : nat → string → option vector).
Context (uuid4 : nat → string).

(** The pairs of the compiled document are written last, so they replace
    the generated fields of the same name. *)
Lemma final_data_lookup (id cc : string) (v : vector)
    (compiled_doc : dict) (k : string) :
  Final.final_data id cc v compiled_doc !! k =
  match compiled_doc !! k with
  | Some s => Some (Final.Str s)
  | None =>
      if decide (k = "combined_content_vector") then Some (Final.Vector v)
      else if decide (k = "combined_content") then Some (Final.Str cc)
      else if decide (k = "id") then Some (Final.Str id)
      else None
  end.
Proof.
  unfold Final.final_data.
  apply (map_fold_weak_ind
    (fun (r : gmap string (Final.value vector)) (m : dict) =>
       r !! k =
       match m !! k with
       | Some s => Some (Final.Str s)
       | None =>
           if decide (k = "combined_content_vector")
           then Some (Final.Vector v)
           else if decide (k = "combined_content") then Some (Final.Str cc)
           else if decide (k = "id") then Some (Final.Str id)
           else None
       end)).
  - rewrite lookup_empty.
    destruct (decide (k = "combined_content_vector")) as [-> | H1];
      [by rewrite lookup_insert_eq |].
    rewrite lookup_insert_ne by done.
    destruct (decide (k = "combined_content")) as [-> | H2];
      [by rewrite lookup_insert_eq |].
    rewrite lookup_insert_ne by done.
    destruct (decide (k = "id")) as [-> | H3];
      [by rewrite lookup_singleton_eq |].
    by rewrite lookup_singleton_ne.
  - intros i x m r Hi IH.
    destruct (decide (k = i)) as [-> | Hne].
    + by rewrite !lookup_insert_eq.
    + by rewrite !lookup_insert_ne.
Qed.

Lemma final_data_dom (id cc : string) (v : vector) (compiled_doc : dict) :
  dom (Final.final_data id cc v compiled_doc)
  = dom compiled_doc ∪ {[ "id"; "combined_content"; "combined_content_vector" ]}.
Proof.
  apply set_eq. intros k.
  rewrite elem_of_union, !elem_of_dom, final_data_lookup.
  rewrite !elem_of_union, !elem_of_singleton.
  destruct (compiled_doc !! k) as [s |].
  - split; [intros _; left; by eexists | intros _; by eexists].
  - split.
    + intros Hs. right.
      repeat case_decide; [by right | by left; right | by left; left |].
      by destruct Hs.
    + intros [[x Hx] | [[-> | ->] | ->]]; [done | | |];
        repeat case_decide; try done; by eexists.
Qed.

(** X8. A final document has every pair of the compiled document, and the
    three generated fields under the names the compiled document does not
    use: a compiled document that has a key ["id"], ["combined_content"]
    or ["combined_content_vector"] replaces the generated value. *)
Theorem final_data_fields (id cc : string) (v : vector)
    (compiled_doc : dict) :
  let final := Final.final_data id cc v compiled_doc in
  map_Forall (fun k s => final !! k = Some (Final.Str s)) compiled_doc
  ∧ (compiled_doc !! "id" = None → final !! "id" = Some (Final.Str id))
  ∧ (compiled_doc !! "combined_content" = None →
     final !! "combined_content" = Some (Final.Str cc))
  ∧ (compiled_doc !! "combined_content_vector" = None →
     final !! "combined_content_vector" = Some (Final.Vector v))
  ∧ dom final
    = dom compiled_doc
      ∪ {[ "id"; "combined_content"; "combined_content_vector" ]}.
Proof.
  cbv zeta. split; [| split; [| split; [| split]]].
  - intros k s Hk. by rewrite final_data_lookup, Hk.
  - intros Hn. by rewrite final_data_lookup, Hn.
  - intros Hn. by rewrite final_data_lookup, Hn.
  - intros Hn. by rewrite final_data_lookup, Hn.
  - apply final_data_dom.
Qed.

(** What the loop appends to [final_documents]. *)
Lemma prepare_loop_spec keys (docs : list dict)
    (acc : list (gmap string (Final.value vector))) :
  let res := Final.prepare_loop embedding uuid4 keys docs acc in
  ∃ new,
    Final.documents_of res = acc ++ new
    ∧ (length new ≤ length docs)%nat
    ∧ (∀ i fd, new !! i = Some fd →
         ∃ d v, docs !! i = Some d
                ∧ embedding (length acc + i) (Final.combined_content keys d)
                  = Some v
                ∧ fd = Final.final_data (uuid4 (length acc + i))
                         (Final.combined_content keys d) v d)
    ∧ ((res = Final.Completed (acc ++ new) ∧ length new = length docs)
       ∨ (res = Final.Raised (acc ++ new)
          ∧ ∃ d, docs !! length new = Some d
                 ∧ embedding (length acc + length new)
                     (Final.combined_content keys d) = None)).
Proof.
  cbv zeta. revert acc. induction docs as [| d docs IH]; intros acc; simpl.
  - exists []. rewrite app_nil_r. split; [done |]. split; [done |].
    split; [by intros i fd Hi | by left].
  - destruct (embedding (length acc) (Final.combined_content keys d))
      as [v |] eqn:E.
    + destruct (IH (acc ++ [Final.final_data (uuid4 (length acc))
                              (Final.combined_content keys d) v d]))
        as (new & Hdocs & Hlen & Hnew & Hend).
      exists (Final.final_data (uuid4 (length acc))
                (Final.combined_content keys d) v d :: new).
      rewrite <- app_assoc in Hdocs, Hend. simpl in Hdocs, Hend.
      split; [done |]. split; [simpl; lia |]. split.
      * intros [| i] fd Hi; simpl in Hi.
        -- injection Hi as <-. exists d, v. rewrite Nat.add_0_r. by simpl.
        -- destruct (Hnew i fd Hi) as (d' & v' & Hd' & Hv' & Hfd).
           rewrite length_app in Hv', Hfd. simpl in Hv', Hfd.
           replace (length acc + 1 + i) with (length acc + S i)
             in Hv', Hfd by lia.
           by exists d', v'.
      * destruct Hend as [[Hres Hl] | (Hres & d' & Hd' & Hnone)].
        -- left. split; [done | simpl; lia].
        -- right. split; [done |]. exists d'. split; [done |].
           rewrite length_app in Hnone. simpl in Hnone. simpl.
           by replace (length acc + S (length new))
             with (length acc + 1 + length new) by lia.
    + exists []. rewrite app_nil_r. split; [done |]. split; [simpl; lia |].
      split; [by intros i fd Hi |]. right. split; [done |]. exists d.
      simpl. by rewrite Nat.add_0_r.
Qed.

(** X9. Where the loop stops.  The cell gives one final document per
    compiled document, in order, up to the first document for which the
    embedding call raises: the [i]-th final document is built from the
    [i]-th compiled document, with the answer of the [i]-th embedding call
    and the [i]-th generated identifier; the loop completes exactly when
    there are as many final documents as compiled ones, and otherwise the
    call for the next compiled document raised. *)
Theorem prepare_outcome (keys : list string)
    (compiled_documents : list ref) (h : heap) :
  let res := Final.prepare embedding uuid4 keys compiled_documents h in
  let final_documents := Final.documents_of res in
  (length final_documents ≤ length compiled_documents)%nat
  ∧ (∀ i fd, final_documents !! i = Some fd →
       ∃ r v, compiled_documents !! i = Some r
              ∧ embedding i (Final.combined_content keys (h !!! r)) = Some v
              ∧ fd = Final.final_data (uuid4 i)
                       (Final.combined_content keys (h !!! r)) v (h !!! r))
  ∧ ((res = Final.Completed final_documents
      ∧ length final_documents = length compiled_documents)
     ∨ (res = Final.Raised final_documents
        ∧ ∃ r, compiled_documents !! length final_documents = Some r
               ∧ embedding (length final_documents)
                   (Final.combined_content keys (h !!! r)) = None)).
Proof.
  cbv zeta. unfold Final.prepare.
  destruct (prepare_loop_spec keys (deref h compiled_documents) [])
    as (new & Hdocs & Hlen & Hnew & Hend).
  simpl in Hdocs, Hend. rewrite Hdocs. unfold deref in *.
  rewrite length_map in Hlen. split; [done |]. split.
  - intros i fd Hi. destruct (Hnew i fd Hi) as (d & v & Hd & Hv & Hfd).
    rewrite list_lookup_fmap in Hd.
    destruct (compiled_documents !! i) as [r |] eqn:Er; [| done].
    simpl in Hd. injection Hd as <-. by exists r, v.
  - rewrite length_map in Hend.
    destruct Hend as [[Hres Hl] | (Hres & d & Hd & Hnone)].
    + by left.
    + right. split; [done |]. rewrite list_lookup_fmap in Hd.
      destruct (compiled_documents !! length new) as [r |] eqn:Er;
        [| done].
      simpl in Hd. injection Hd as <-. by exists r.
Qed.

(** Every expected key of a normalized document contributes to the
    combined content. *)
Lemma combined_content_complete keys keys' (d d0 : dict) :
  (∀ k, d !! k = with_sentinel keys' d0 k) →
  (∀ k, k ∈ keys → k ∈ keys') →
  Final.combined_content keys d
  = join " " (map (fun k => default Null (d0 !! k)) keys).
Proof.
  intros Hd Hsub. unfold Final.combined_content. f_equal.
  induction keys as [| k keys IH]; [done |].
  assert (Hk : k ∈ keys') by (apply Hsub, list_elem_of_here).
  rewrite (omap_cons_Some _ k (default Null (d0 !! k))).
  - simpl. f_equal. apply IH.
    intros k' Hk'. by apply Hsub, list_elem_of_further.
  - rewrite Hd. unfold with_sentinel.
    destruct (d0 !! k); [done |]. by destruct (decide (k ∈ keys')).
Qed.

(** X10. After [expected_keys], the combined content of every document has
    one part per expected key, in the order of the key list: the value of
    the document, or the text ["Null"] for a key the document did not
    have. *)
Theorem combined_content_of_normalized (keys : list string)
    (compiled_documents : list ref) (h : heap) :
  let h' := fst (expected_keys compiled_documents keys h) in
  Forall (fun r =>
            Final.combined_content keys (h' !!! r)
            = join " " (map (fun k => default "Null" ((h !!! r) !! k)) keys))
         compiled_documents.
Proof.
  cbv zeta. apply Forall_forall. intros r Hr.
  apply (combined_content_complete keys keys); [| done].
  intros k. rewrite expected_keys_lookup.
  by destruct (decide (r ∈ compiled_documents)).
Qed.

(** X11. With the key list of the notebook, which contains ["id"], the
    identifier of every final document is the one the compiled document
    had, or ["Null"] when it had none; the generated identifier is
    replaced in every document. *)
Theorem final_id_from_document
    (compiled_documents : list ref) (h : heap) :
  let h' := fst (expected_keys compiled_documents expected_key_list h) in
  let final_documents :=
    Final.documents_of
      (Final.prepare embedding uuid4 expected_key_list
         compiled_documents h') in
  Forall2 (fun r fd =>
             fd !! "id"
             = Some (Final.Str (default "Null" ((h !!! r) !! "id"))))
          (take (length final_documents) compiled_documents)
          final_documents.
Proof.
  cbv zeta.
  set (h' := fst (expected_keys compiled_documents expected_key_list h)).
  unfold Final.prepare.
  destruct (prepare_loop_spec expected_key_list
              (deref h' compiled_documents) [])
    as (new & Hdocs & Hlen & Hnew & _).
  simpl in Hdocs. rewrite Hdocs. unfold deref in *.
  rewrite length_map in Hlen.
  apply Forall2_same_length_lookup. split.
  { rewrite length_take. lia. }
  intros i r fd Hr Hfd.
  apply lookup_take_Some in Hr as [Hr _].
  destruct (Hnew i fd Hfd) as (d & v & Hd & _ & ->).
  rewrite list_lookup_fmap, Hr in Hd. simpl in Hd. injection Hd as <-.
  rewrite final_data_lookup. unfold h'. rewrite expected_keys_lookup.
  assert (Hin : r ∈ compiled_documents)
    by (apply list_elem_of_lookup; by exists i).
  destruct (decide (r ∈ compiled_documents)); [| done].
  unfold with_sentinel. destruct ((h !!! r) !! "id"); [done |].
  by vm_compute.
Qed.

(** X12. With the key list of the notebook, every final document has the
    keys of its compiled document and the six keys ["id"], ["title"],
    ["author"], ["published_date"], ["combined_content"] and
    ["combined_content_vector"], and no other key. *)
Theorem final_document_keys
    (compiled_documents : list ref) (h : heap) :
  let h' := fst (expected_keys compiled_documents expected_key_list h) in
  let final_documents :=
    Final.documents_of
      (Final.prepare embedding uuid4 expected_key_list
         compiled_documents h') in
  Forall2 (fun r fd =>
             dom fd
             = dom (h !!! r)
               ∪ {[ "id"; "title"; "author"; "published_date";
                    "combined_content"; "combined_content_vector" ]})
          (take (length final_documents) compiled_documents)
          final_documents.
Proof.
  cbv zeta.
  set (h' := fst (expected_keys compiled_documents expected_key_list h)).
  unfold Final.prepare.
  destruct (prepare_loop_spec expected_key_list
              (deref h' compiled_documents) [])
    as (new & Hdocs & Hlen & Hnew & _).
  simpl in Hdocs. rewrite Hdocs. unfold deref in *.
  rewrite length_map in Hlen.
  apply Forall2_same_length_lookup. split.
  { rewrite length_take. lia. }
  intros i r fd Hr Hfd.
  apply lookup_take_Some in Hr as [Hr _].
  destruct (Hnew i fd Hfd) as (d & v & Hd & _ & ->).
  rewrite list_lookup_fmap, Hr in Hd. simpl in Hd. injection Hd as <-.
  rewrite final_data_dom.
  assert (Hin : r ∈ compiled_documents)
    by (apply list_elem_of_lookup; by exists i).
  assert (Hdom : dom (h' !!! r)
                 = dom (h !!! r)
                   ∪ {[ "id"; "title"; "author"; "published_date" ]}).
  { apply set_eq. intros k. rewrite elem_of_union, !elem_of_dom.
    unfold h'. rewrite expected_keys_lookup.
    destruct (decide (r ∈ compiled_documents)); [| done].
    unfold with_sentinel, expected_key_list.
    rewrite !elem_of_union, !elem_of_singleton.
    destruct ((h !!! r) !! k) as [s |].
    - split; [intros _; left; by eexists | intros _; by eexists].
    - destruct (decide (k ∈ _)) as [Hk | Hk].
      + split; [| intros _; by eexists]. intros _. right.
        rewrite !elem_of_cons in Hk.
        destruct Hk as [-> | [-> | [-> | [-> | Hk]]]]; auto.
        by apply elem_of_nil in Hk.
      + split; [by intros [? ?] |].
        intros [[? ?] | Hk']; [done |]. exfalso. apply Hk.
        rewrite !elem_of_cons. tauto. }
  rewrite Hdom. apply set_eq. intros k.
  rewrite !elem_of_union, !elem_of_singleton. tauto.
Qed.
End final_facts.

(** ** The Document Compiler and its entity objects *)

Section compile_objects.
Context (tk : list string).

Lemma title_refs_ext (h1 h2 : heap) es :
  (∀ r, r ∈ es → title_entity tk (h1 !!! r) ↔ title_entity tk (h2 !!! r)) →
  title_refs tk h1 es = title_refs tk h2 es.
Proof.
  unfold title_refs. induction es as [| e es IH]; intros Hext; [done |].
  rewrite !filter_cons, IH.
  - assert (He := Hext e (list_elem_of_here e es)).
    destruct (decide (title_entity tk (h1 !!! e))),
             (decide (title_entity tk (h2 !!! e))); tauto.
  - intros r Hr. apply Hext. by apply list_elem_of_further.
Qed.

Lemma leading_non_title_ext (h1 h2 : heap) es :
  (∀ r, r ∈ es → title_entity tk (h1 !!! r) ↔ title_entity tk (h2 !!! r)) →
  leading_non_title tk (deref h1 es) = leading_non_title tk (deref h2 es).
Proof.
  induction es as [| e es IH]; intros Hext; [done |]. simpl.
  assert (He := Hext e (list_elem_of_here e es)).
  rewrite IH by (intros r Hr; apply Hext; by apply list_elem_of_further).
  destruct (decide (title_entity tk (h1 !!! e))),
           (decide (title_entity tk (h2 !!! e))); tauto.
Qed.

(** The returned list: the documents emitted so far, the current document
    when it is or becomes non-empty, and the title entities still to
    come. *)
Lemma compile_loop_result es st :
  current_doc st ∉ es ∨ title_entity tk (st_heap st !!! current_doc st) →
  (∀ r, r ∈ es → st_heap st !!! r ≠ ∅) →
  result_of (compile_loop tk es st) =
    compiled_docs st
    ++ (if decide (st_heap st !!! current_doc st ≠ ∅
                   ∨ 0 < leading_non_title tk (deref (st_heap st) es))
        then [current_doc st] else [])
    ++ title_refs tk (st_heap st) es.
Proof.
  revert st. induction es as [| item es IH]; intros st Hcur Hne.
  - simpl. unfold result_of, title_refs. simpl. rewrite app_nil_r.
    destruct (truthy _) eqn:E.
    + apply truthy_spec in E. destruct (decide _) as [_ | Hn]; [done | tauto].
    + apply truthy_false in E.
      destruct (decide _) as [[Hn | Hn] | _];
        [congruence | lia | by rewrite app_nil_r].
  - rewrite compile_loop_cons. simpl deref. simpl leading_non_title.
    unfold title_refs. rewrite filter_cons. fold (title_refs tk (st_heap st) es).
    assert (Hitem : st_heap st !!! item ≠ ∅)
      by (apply Hne; apply list_elem_of_here).
    unfold compile_step.
    destruct (decide (title_entity tk (st_heap st !!! item))) as [Ht | Ht].
    + rewrite (proj2 (any_title_key_spec tk _) Ht).
      rewrite IH; simpl.
      * destruct (decide (st_heap st !!! item ≠ ∅ ∨ _)) as [_ | Hn];
          [| tauto].
        destruct (truthy _) eqn:E.
        -- apply truthy_spec in E.
           destruct (decide _) as [_ | Hn]; [| tauto].
           by rewrite <- app_assoc.
        -- apply truthy_false in E.
           destruct (decide _) as [[Hn | Hn] | _]; [congruence | lia | done].
      * by right.
      * intros r Hr. apply Hne. by apply list_elem_of_further.
    + rewrite (proj2 (any_title_key_false tk _) Ht).
      assert (Hflags : ∀ r, r ∈ es →
        title_entity tk
          (<[current_doc st := update (st_heap st !!! current_doc st)
                                 (st_heap st !!! item)]> (st_heap st) !!! r)
        ↔ title_entity tk (st_heap st !!! r)).
      { intros r Hr. destruct (decide (r = current_doc st)) as [-> | Hrc].
        - rewrite lookup_total_insert_eq.
          destruct Hcur as [Hcur | Hcur].
          + exfalso. apply Hcur. by apply list_elem_of_further.
          + split; [done |]. intros _. apply update_title. by right.
        - by rewrite lookup_total_insert_ne. }
      rewrite IH; simpl.
      * rewrite lookup_total_insert_eq.
        destruct (decide (update _ _ ≠ ∅ ∨ _)) as [_ | Hn].
        2:{ exfalso. apply Hn. left. by apply update_non_empty. }
        destruct (decide (_ ∨ 0 < S _)) as [_ | Hn];
          [| exfalso; apply Hn; lia].
        do 2 f_equal. by apply title_refs_ext.
      * rewrite lookup_total_insert_eq.
        destruct Hcur as [Hcur | Hcur].
        -- left. intros Hin. apply Hcur. by apply list_elem_of_further.
        -- right. apply update_title. by right.
      * intros r Hr. destruct (decide (r = current_doc st)) as [-> | Hrc].
        -- rewrite lookup_total_insert_eq. by apply update_non_empty.
        -- rewrite lookup_total_insert_ne by done.
           apply Hne. by apply list_elem_of_further.
Qed.

(** The merged entities are non-title entities. *)
Lemma merged_into_non_title (h : heap) cur es r :
  Forall (fun d => ¬ title_entity tk d) (merged_into tk h cur es r).
Proof.
  revert cur. induction es as [| item es IH]; intros cur; [constructor |].
  simpl. destruct (decide (title_entity tk (h !!! item))) as [Ht | Ht].
  - rewrite (proj2 (any_title_key_spec tk _) Ht). apply IH.
  - rewrite (proj2 (any_title_key_false tk _) Ht).
    apply Forall_app. split; [| apply IH].
    destruct (decide (cur = r)); [by apply Forall_singleton | constructor].
Qed.

Lemma fold_update_title ds (d : dict) :
  Forall (fun d' => ¬ title_entity tk d') ds →
  title_entity tk (fold_left update ds d) ↔ title_entity tk d.
Proof.
  revert d. induction ds as [| d' ds IH]; intros d Hds; [done |].
  apply Forall_cons in Hds as [Hd' Hds]. simpl.
  rewrite (IH _ Hds), update_title. tauto.
Qed.

Lemma fold_update_twice ds (d : dict) :
  fold_left update ds (fold_left update ds d) = fold_left update ds d.
Proof.
  apply map_eq. intros k. rewrite !fold_update_lookup.
  by destruct (last_value k ds).
Qed.

(** The store after the loop has the objects it had before. *)
Lemma compile_loop_dom es st :
  live (st_heap st) (current_doc st) → Forall (live (st_heap st)) es →
  dom (st_heap (compile_loop tk es st)) = dom (st_heap st).
Proof.
  revert st. induction es as [| item es IH]; intros st Hcur Hes; [done |].
  apply Forall_cons in Hes as [Hitem Hes].
  rewrite compile_loop_cons.
  assert (Hdom : dom (st_heap (compile_step tk st item)) = dom (st_heap st)).
  { unfold compile_step.
    destruct (any_title_key tk (st_heap st !!! item)); simpl; [done |].
    by apply dom_insert_lookup_L. }
  assert (Hlive : ∀ r, live (st_heap st) r →
                       live (st_heap (compile_step tk st item)) r).
  { intros r Hr. unfold live in *. apply elem_of_dom.
    rewrite Hdom. by apply elem_of_dom. }
  rewrite IH, Hdom; [done | |].
  - apply Hlive. unfold compile_step.
    destruct (any_title_key tk (st_heap st !!! item)); simpl; done.
  - eapply Forall_impl; [exact Hes |]. intros r Hr. by apply Hlive.
Qed.

End compile_objects.

(** The first call of [compile_documents] seen from its entities: which
    objects are returned, which objects exist afterwards and what they
    hold. *)
Lemma compile_documents_objects es key keys (h : heap) :
  let tk := key :: keys in
  Forall (fun r => live h r ∧ h !!! r ≠ ∅) es →
  ∃ h' docs,
    compile_documents es (Some tk) h = (h', inr docs)
    ∧ docs = (if decide (0 < leading_non_title tk (deref h es))
              then [fresh (dom h)] else [])
             ++ title_refs tk h es
    ∧ dom h' = {[ fresh (dom h) ]} ∪ dom h
    ∧ (∀ r, h' !!! r
            = fold_left update (merged_into tk h (fresh (dom h)) es r)
                        (h !!! r)).
Proof.
  intros tk Hes. rewrite Forall_forall in Hes. unfold tk.
  rewrite compile_documents_ok. simpl. eexists _, _. split; [reflexivity |].
  set (cur0 := fresh (dom h)).
  set (st0 := LoopState (<[cur0 := ∅]> h) [] cur0).
  assert (Hcur : current_doc st0 ∉ es
                 ∨ title_entity (key :: keys)
                     (st_heap st0 !!! current_doc st0)).
  { left. intros Hin. by apply (fresh_not_live h), Hes. }
  assert (Hsame : ∀ r, st_heap st0 !!! r = h !!! r)
    by (intros r; apply initial_lookup).
  split; [| split].
  - rewrite compile_loop_result; [| done |].
    + change (<[cur0 := ∅]> h) with (st_heap st0).
      rewrite (leading_non_title_ext (key :: keys) (st_heap st0) h)
        by (intros r _; by rewrite Hsame).
      rewrite (title_refs_ext (key :: keys) (st_heap st0) h)
        by (intros r _; by rewrite Hsame).
      rewrite Hsame. change (current_doc st0) with (fresh (dom h)).
      change (compiled_docs st0) with (@nil ref).
      rewrite lookup_total_fresh. simpl.
      destruct (decide (∅ ≠ ∅ ∨ _)) as [[Hn | Hn] | Hn];
        destruct (decide (0 < _)); (done || lia || tauto).
    + intros r Hr. rewrite Hsame. by apply Hes.
  - rewrite compile_loop_dom; simpl.
    + by rewrite dom_insert_L.
    + unfold live. rewrite lookup_insert_eq. by eexists.
    + apply Forall_forall. intros r Hr. unfold live.
      rewrite lookup_insert_ne.
      * by apply Hes.
      * intros <-. by apply (fresh_not_live h), Hes.
  - intros r. rewrite compile_loop_merged by done. simpl.
    rewrite Hsame. f_equal. apply merged_into_ext.
    intros x _. by rewrite Hsame.
Qed.

(** X13. The returned documents are the title entity objects themselves, in
    the order of the sequence, after one new object when the sequence starts
    with a non-title entity; the call creates that one object and no other;
    and every object that is not a title entity of the sequence, a non-title
    entity included, is left as it was. *)
Theorem compile_documents_returns_entities
    (entities : list ref) (key : string) (keys : list string) (h : heap) :
  Forall (fun r => live h r ∧ h !!! r ≠ ∅) entities →
  ∃ h' docs,
    compile_documents entities (Some (key :: keys)) h = (h', inr docs)
    ∧ docs = (if decide (0 < leading_non_title (key :: keys)
                               (deref h entities))
              then [fresh (dom h)] else [])
             ++ filter (fun r => title_entity (key :: keys) (h !!! r))
                       entities
    ∧ dom h' = {[ fresh (dom h) ]} ∪ dom h
    ∧ (∀ r, live h r →
            ¬ (r ∈ entities ∧ title_entity (key :: keys) (h !!! r)) →
            h' !! r = h !! r).
Proof.
  intros Hes.
  destruct (compile_documents_objects entities key keys h Hes)
    as (h' & docs & Hrun & Hdocs & Hdom & Hval).
  exists h', docs. split; [done |]. split; [done |]. split; [done |].
  intros r Hlive Hnt.
  assert (Hr : r ≠ fresh (dom h)).
  { intros ->. by apply (fresh_not_live h). }
  specialize (Hval r). rewrite merged_into_nil in Hval by done.
  simpl in Hval.
  assert (Hlive' : live h' r).
  { unfold live. apply elem_of_dom. rewrite Hdom.
    apply elem_of_union_r. by apply elem_of_dom. }
  destruct Hlive as [d Hd], Hlive' as [d' Hd'].
  rewrite (lookup_total_correct _ _ _ Hd) in Hval.
  rewrite (lookup_total_correct _ _ _ Hd') in Hval. congruence.
Qed.

(** X14. On pairwise distinct entity objects the returned documents hold, in
    order, the groups of the specification: each title entity with the
    entities up to the next title entity merged into it, the last value of a
    key winning. *)
Theorem compile_documents_groups
    (entities : list ref) (key : string) (keys : list string) (h : heap) :
  NoDup entities → Forall (live h) entities →
  ∃ h' docs,
    compile_documents entities (Some (key :: keys)) h = (h', inr docs)
    ∧ deref h' docs = grouped (key :: keys) (deref h entities).
Proof.
  intros Hnd Hlive.
  pose proof (compile_documents_grouped entities key keys h Hnd Hlive) as Hg.
  rewrite compile_documents_ok in *. simpl in *.
  eexists _, _. split; [reflexivity |]. by injection Hg.
Qed.

Lemma example_heap_entities :
  Forall (fun r => live example_heap r ∧ example_heap !!! r ≠ ∅) [0; 1; 2; 3].
Proof.
  repeat apply Forall_cons_2; [| | | | apply Forall_nil_2];
    (split;
     [ unfold live; eexists; vm_compute; reflexivity
     | intros Hempty; apply (f_equal size) in Hempty;
       vm_compute in Hempty; discriminate Hempty ]).
Defined.

Lemma compile_documents_returns_entities_witness :
  Forall (fun r => live example_heap r ∧ example_heap !!! r ≠ ∅) [0; 1; 2; 3]
  ∧ ∃ h' docs,
      compile_documents [0; 1; 2; 3] (Some ["document_title"]) example_heap
      = (h', inr docs)
      ∧ docs = [0; 2].
Proof.
  split; [exact example_heap_entities |].
  destruct (compile_documents_returns_entities [0; 1; 2; 3] "document_title"
              [] example_heap example_heap_entities)
    as (h' & docs & Hrun & Hdocs & _).
  exists h', docs. split; [exact Hrun |]. rewrite Hdocs.
  vm_compute. reflexivity.
Defined.

Lemma compile_documents_groups_witness :
  NoDup [0; 1; 2; 3] ∧ Forall (live example_heap) [0; 1; 2; 3]
  ∧ ∃ h' docs,
      compile_documents [0; 1; 2; 3] (Some ["document_title"]) example_heap
      = (h', inr docs)
      ∧ deref h' docs
        = grouped ["document_title"] (deref example_heap [0; 1; 2; 3]).
Proof.
  assert (Hnd : NoDup [0; 1; 2; 3]).
  { refine (bool_decide_unpack (NoDup [0; 1; 2; 3]) _). vm_compute. exact I. }
  assert (Hlive : Forall (live example_heap) [0; 1; 2; 3]).
  { repeat apply Forall_cons_2; [| | | | apply Forall_nil_2];
      unfold live; eexists; vm_compute; reflexivity. }
  split; [exact Hnd |]. split; [exact Hlive |].
  exact (compile_documents_groups [0; 1; 2; 3] "document_title" []
           example_heap Hnd Hlive).
Defined.

(** *** Calling [compile_documents] again on the same list *)

Lemma merged_into_other_current tk (h : heap) c c' es r :
  r ≠ c → r ≠ c' → merged_into tk h c es r = merged_into tk h c' es r.
Proof.
  revert c c'. induction es as [| item es IH]; intros c c' Hc Hc'; [done |].
  simpl. destruct (any_title_key tk (h !!! item)); [done |].
  destruct (decide (c = r)) as [-> | _]; [done |].
  destruct (decide (c' = r)) as [-> | _]; [done |].
  simpl. by apply IH.
Qed.

(** What is merged into the first accumulator does not depend on which new
    object it is. *)
Lemma merged_into_accumulator tk (h : heap) c c' es :
  c ∉ es → c' ∉ es →
  merged_into tk h c es c = merged_into tk h c' es c'.
Proof.
  induction es as [| item es IH]; intros Hc Hc'; [done |].
  apply not_elem_of_cons in Hc as [Hci Hc], Hc' as [Hci' Hc'].
  simpl. destruct (any_title_key tk (h !!! item)).
  - rewrite !merged_into_nil; [done | done | tauto | done | tauto].
  - destruct (decide (c = c)); [| done]. destruct (decide (c' = c')); [| done].
    f_equal. by apply IH.
Qed.

Lemma fold_update_non_empty ds (d : dict) :
  d ≠ ∅ → fold_left update ds d ≠ ∅.
Proof.
  revert d. induction ds as [| d' ds IH]; intros d Hd; [done |].
  simpl. apply IH. eapply extends_non_empty; [apply update_extends | done].
Qed.

(** X15. Calling [compile_documents] a second time on the same list, whose
    title entities the first call has changed, returns documents with the
    same values, and leaves the documents of the first call as they were. *)
Theorem compile_documents_again
    (entities : list ref) (key : string) (keys : list string) (h : heap) :
  Forall (fun r => live h r ∧ h !!! r ≠ ∅) entities →
  ∃ h1 docs1 h2 docs2,
    compile_documents entities (Some (key :: keys)) h = (h1, inr docs1)
    ∧ compile_documents entities (Some (key :: keys)) h1 = (h2, inr docs2)
    ∧ deref h2 docs2 = deref h1 docs1
    ∧ deref h2 docs1 = deref h1 docs1.
Proof.
  intros Hes. set (tk := key :: keys).
  destruct (compile_documents_objects entities key keys h Hes)
    as (h1 & docs1 & Hrun1 & Hdocs1 & Hdom1 & Hval1).
  fold tk in Hrun1, Hdocs1, Hval1.
  rewrite Forall_forall in Hes.
  set (c0 := fresh (dom h)) in *.
  assert (Hc0 : c0 ∉ entities).
  { intros Hin. by apply (fresh_not_live h), Hes. }
  (* the entities after the first call *)
  assert (Hflags : ∀ r, title_entity tk (h1 !!! r) ↔ title_entity tk (h !!! r)).
  { intros r. rewrite Hval1. apply fold_update_title, merged_into_non_title. }
  assert (Hnon_title : ∀ r, r ∈ entities → ¬ title_entity tk (h !!! r) →
                            h1 !!! r = h !!! r).
  { intros r Hr Hnt. rewrite Hval1, merged_into_nil; [done | | tauto].
    intros ->. by apply Hc0. }
  assert (Hlive1 : ∀ r, live h r → live h1 r).
  { intros r Hr. unfold live in *. apply elem_of_dom. rewrite Hdom1.
    apply elem_of_union_r. by apply elem_of_dom. }
  assert (Hes1 : Forall (fun r => live h1 r ∧ h1 !!! r ≠ ∅) entities).
  { apply Forall_forall. intros r Hr. destruct (Hes r Hr) as [Hl Hne].
    split; [by apply Hlive1 |]. rewrite Hval1.
    by apply fold_update_non_empty. }
  destruct (compile_documents_objects entities key keys h1 Hes1)
    as (h2 & docs2 & Hrun2 & Hdocs2 & Hdom2 & Hval2).
  fold tk in Hrun2, Hdocs2, Hval2.
  set (c1 := fresh (dom h1)) in *.
  assert (Hc1 : c1 ∉ entities).
  { intros Hin. apply (fresh_not_live h1), Hlive1. by apply Hes. }
  assert (Hc01 : c0 ≠ c1).
  { intros Heq. apply (fresh_not_live h1). fold c1. rewrite <- Heq.
    unfold live. apply elem_of_dom. rewrite Hdom1. by apply elem_of_union_l,
      elem_of_singleton. }
  rewrite (leading_non_title_ext tk h1 h) in Hdocs2 by (intros r _; apply Hflags).
  rewrite (title_refs_ext tk h1 h) in Hdocs2 by (intros r _; apply Hflags).
  (* what the second call merges is what the first call merged *)
  assert (Hmerged : ∀ c r, merged_into tk h1 c entities r
                           = merged_into tk h c entities r).
  { intros c r. apply merged_into_ext. intros x Hx. split; [apply Hflags |].
    intros Hnt. apply Hnon_title; [done |]. by rewrite <- Hflags. }
  assert (Htitle : ∀ r, r ∈ title_refs tk h entities → h2 !!! r = h1 !!! r).
  { intros r Hr. unfold title_refs in Hr.
    apply list_elem_of_filter in Hr as [Ht Hr].
    rewrite Hval2, Hmerged.
    rewrite (merged_into_other_current tk h c1 c0);
      [| by intros -> | by intros ->].
    rewrite Hval1. apply fold_update_twice. }
  assert (Hacc : h2 !!! c1 = h1 !!! c0).
  { rewrite Hval2, Hmerged, (Hval1 c0).
    rewrite (merged_into_accumulator tk h c1 c0) by done.
    assert (H1 : h1 !!! c1 = (∅ : dict)) by apply lookup_total_fresh.
    assert (H0 : h !!! c0 = (∅ : dict)) by apply lookup_total_fresh.
    by rewrite H1, H0. }
  assert (Hacc0 : h2 !!! c0 = h1 !!! c0).
  { rewrite Hval2, Hmerged, merged_into_nil; [done | done |].
    intros [Hin _]. by apply Hc0. }
  assert (Hrefs : deref h2 (title_refs tk h entities)
                  = deref h1 (title_refs tk h entities)).
  { unfold deref. apply map_ext_in. intros r Hr.
    apply Htitle. by apply list_elem_of_In. }
  exists h1, docs1, h2, docs2. split; [done |]. split; [done |].
  rewrite Hdocs1, Hdocs2. unfold deref in *. rewrite !map_app, Hrefs.
  split; f_equal; destruct (decide _); simpl; congruence.
Qed.

Lemma compile_documents_again_witness :
  Forall (fun r => live example_heap r ∧ example_heap !!! r ≠ ∅) [0; 1; 0; 3]
  ∧ ∃ h1 docs1 h2 docs2,
      compile_documents [0; 1; 0; 3] (Some ["document_title"]) example_heap
      = (h1, inr docs1)
      ∧ compile_documents [0; 1; 0; 3] (Some ["document_title"]) h1
        = (h2, inr docs2)
      ∧ deref h2 docs2 = deref h1 docs1
      ∧ deref h2 docs1 = deref h1 docs1.
Proof.
  assert (Hes : Forall (fun r => live example_heap r ∧ example_heap !!! r ≠ ∅)
                       [0; 1; 0; 3]).
  { repeat apply Forall_cons_2; [| | | | apply Forall_nil_2];
      (split;
       [ unfold live; eexists; vm_compute; reflexivity
       | intros Hempty; apply (f_equal size) in Hempty;
         vm_compute in Hempty; discriminate Hempty ]). }
  split; [exact Hes |].
  exact (compile_documents_again [0; 1; 0; 3] "document_title" []
           example_heap Hes).
Defined.

(** ** From the label records to the documents *)

Lemma flattened_non_empty data :
  Forall (fun d : dict => d ≠ ∅) (flattened data).
Proof.
  unfold flattened. apply Forall_forall. intros d Hd.
  apply list_elem_of_In, in_flat_map in Hd as (document & _ & Hd).
  apply in_map_iff in Hd as (e & <- & _).
  unfold entity_of. apply map_non_empty_singleton.
Qed.

(** A non-empty sequence of non-empty entities gives a document. *)
Lemma compile_documents_some_document es key keys (h : heap) :
  es ≠ [] → Forall (fun r => live h r ∧ h !!! r ≠ ∅) es →
  ∃ h' doc docs,
    compile_documents es (Some (key :: keys)) h = (h', inr (doc :: docs)).
Proof.
  intros Hne Hes.
  destruct (compile_documents_objects es key keys h Hes)
    as (h' & docs & Hrun & Hdocs & _).
  exists h'. destruct docs as [| doc docs]; [| by exists doc, docs].
  exfalso. destruct es as [| e es]; [done |].
  simpl in Hdocs. unfold title_refs in Hdocs. rewrite filter_cons in Hdocs.
  destruct (decide (title_entity (key :: keys) (h !!! e))); [done |].
  destruct (decide (0 < S _)); [done | lia].
Qed.

(** X16. [extract_entities] followed by [compile_documents].  Called with
    non-empty title keys on the entities that [extract_entities] returns,
    [compile_documents] returns documents whose values are the groups of
    the flattened label entries, and it returns no document exactly when
    [extract_entities] returned no entity. *)
Theorem extract_then_compile (data : list LabelRecord)
    (key : string) (keys : list string) (h : heap) :
  let extracted := extract_entities data h in
  ∃ h' docs,
    compile_documents (snd extracted) (Some (key :: keys)) (fst extracted)
    = (h', inr docs)
    ∧ deref h' docs = grouped (key :: keys) (flattened data)
    ∧ (docs = [] ↔ snd extracted = []).
Proof.
  cbv zeta. rewrite extract_entities_alloc.
  pose proof (alloc_all_spec (flattened data) h)
    as (Hnd & Hlive & Hval & _).
  destruct (alloc_all (flattened data) h) as [h1 entities].
  cbn [fst snd] in *.
  pose proof (compile_documents_grouped entities key keys h1 Hnd Hlive)
    as Hg.
  destruct entities as [| e es].
  - exists (<[fresh (dom h1) := ∅]> h1), []. rewrite <- Hval.
    split; [| done]. rewrite compile_documents_ok. cbv zeta.
    unfold compile_loop, result_of. simpl.
    by rewrite lookup_total_insert_eq.
  - assert (Hes : Forall (fun r => live h1 r ∧ h1 !!! r ≠ ∅) (e :: es)).
    { apply Forall_forall. intros r Hr. rewrite Forall_forall in Hlive.
      split; [by apply Hlive |].
      pose proof (flattened_non_empty data) as Hne.
      rewrite <- Hval in Hne. unfold deref in Hne.
      rewrite Forall_map, Forall_forall in Hne. by apply Hne. }
    destruct (compile_documents_some_document (e :: es) key keys h1)
      as (h2 & doc & docs & Hrun); [done | done |].
    rewrite Hrun in *. unfold values_of in Hg. injection Hg as Hg.
    exists h2, (doc :: docs). split; [done |]. rewrite <- Hval.
    split; [exact Hg |]. split; intros; done.
Qed.

(** ** The Field Normalizer and the store *)

Lemma set_missing_other r (h : heap) k r' :
  r' ≠ r → set_missing r h k !! r' = h !! r'.
Proof.
  intros Hne. unfold set_missing.
  destruct (key_in k (h !!! r)); [done |]. by rewrite lookup_insert_ne.
Qed.

Lemma set_missing_live r (h : heap) k r' :
  live h r' → live (set_missing r h k) r'.
Proof.
  intros Hl. unfold set_missing, live.
  destruct (key_in k (h !!! r)); [done |].
  destruct (decide (r = r')) as [-> | Hne].
  - rewrite lookup_insert_eq. by eexists.
  - by rewrite lookup_insert_ne.
Qed.

Lemma fill_doc_other keys (h : heap) r r' :
  r' ≠ r → fill_doc keys h r !! r' = h !! r'.
Proof.
  intros Hne. unfold fill_doc. revert h.
  induction keys as [| k keys IH]; intros h; [done |].
  simpl. by rewrite IH, set_missing_other.
Qed.

Lemma fill_doc_live keys (h : heap) r r' :
  live h r' → live (fill_doc keys h r) r'.
Proof.
  unfold fill_doc. revert h.
  induction keys as [| k keys IH]; intros h Hl; [done |].
  simpl. by apply IH, set_missing_live.
Qed.

(** X17. [expected_keys] changes only the documents of its list: every other
    object of the store is as before, no object disappears, and no object
    appears when the documents of the list are live. *)
Theorem expected_keys_frame (compiled_documents : list ref)
    (expected_key_list : list string) (h : heap) :
  let h' := fst (expected_keys compiled_documents expected_key_list h) in
  (∀ r, r ∉ compiled_documents → h' !! r = h !! r)
  ∧ (∀ r, live h r → live h' r)
  ∧ (Forall (live h) compiled_documents → dom h' = dom h).
Proof.
  cbv zeta. unfold expected_keys. simpl.
  assert (Hother : ∀ docs (h0 : heap) r, r ∉ docs →
    fold_left (fill_doc expected_key_list) docs h0 !! r = h0 !! r).
  { induction docs as [| d docs IH]; intros h0 r Hr; [done |].
    apply not_elem_of_cons in Hr as [Hrd Hr]. simpl.
    by rewrite IH, fill_doc_other. }
  assert (Hlive : ∀ docs (h0 : heap) r, live h0 r →
    live (fold_left (fill_doc expected_key_list) docs h0) r).
  { induction docs as [| d docs IH]; intros h0 r Hr; [done |].
    simpl. by apply IH, fill_doc_live. }
  split; [by apply Hother |]. split; [by apply Hlive |].
  intros Hdocs. rewrite Forall_forall in Hdocs.
  apply set_eq. intros r. rewrite !elem_of_dom. split.
  - intros Hr. destruct (decide (r ∈ compiled_documents)) as [Hin | Hnin].
    + by apply Hdocs.
    + by rewrite Hother in Hr.
  - apply Hlive.
Qed.

(** X18. The key list may be given in parts and in any order: normalizing
    with [keys1 ++ keys2] gives the documents that normalizing with [keys1]
    and then with [keys2] gives, and two key lists with the same keys give
    the same documents. *)
Theorem expected_keys_key_lists (compiled_documents : list ref)
    (keys1 keys2 : list string) (h : heap) :
  (∀ r, fst (expected_keys compiled_documents (keys1 ++ keys2) h) !!! r
        = fst (expected_keys compiled_documents keys2
                 (fst (expected_keys compiled_documents keys1 h))) !!! r)
  ∧ ((∀ k, k ∈ keys1 ↔ k ∈ keys2) →
     ∀ r, fst (expected_keys compiled_documents keys1 h) !!! r
          = fst (expected_keys compiled_documents keys2 h) !!! r).
Proof.
  split.
  - intros r. apply map_eq. intros k. rewrite !expected_keys_lookup.
    destruct (decide (r ∈ compiled_documents)); [| done].
    unfold with_sentinel. rewrite expected_keys_lookup.
    destruct (decide (r ∈ compiled_documents)); [| done].
    unfold with_sentinel. destruct ((h !!! r) !! k); [done |].
    destruct (decide (k ∈ keys1 ++ keys2)) as [Hin | Hnin].
    + apply elem_of_app in Hin.
      destruct (decide (k ∈ keys1)); [done |].
      destruct (decide (k ∈ keys2)); [done | tauto].
    + rewrite elem_of_app in Hnin.
      destruct (decide (k ∈ keys1)); [tauto |].
      destruct (decide (k ∈ keys2)); [tauto | done].
  - intros Hsame r. apply map_eq. intros k. rewrite !expected_keys_lookup.
    destruct (decide (r ∈ compiled_documents)); [| done].
    unfold with_sentinel. destruct ((h !!! r) !! k); [done |].
    specialize (Hsame k).
    destruct (decide (k ∈ keys1)), (decide (k ∈ keys2)); tauto.
Qed.
